(** * An order-statistics red/black tree on a pointer heap

    Shallow embedding of [RedBlackTree.cpp].  The C++ class keeps one
    [root] pointer; its nodes live on the free store and refer to each
    other through raw [Node*] pointers (children and a parent back
    pointer).  The embedding keeps that shape: the free store is an arena
    (a list of node records indexed by address), a pointer is an optional
    address ([None] is [nullptr]), and every member function that mutates
    is a computation over the tree state that can also fail.

    The header [RedBlackTree.h], which declares [Node] and [Color], is not
    among the sources; the field names and the two colours are the ones the
    member functions use.  The [size] field is
    taken as an [int], like the key and like the counters [rankOf] and
    [select] add it to.  Text written to [cout] is not part of the model. *)

From Stdlib Require Import ZArith List Bool Lia.
From stdpp Require Import base option list.
Import ListNotations.

Open Scope Z_scope.

(** ** Machine integers *)

(** Arithmetic on [int]: 32 bits, two's complement, wrap-around written
    out. *)
Definition int_wrap (z : Z) : Z := (z + 2 ^ 31) mod 2 ^ 32 - 2 ^ 31.
Definition int_add (a b : Z) : Z := int_wrap (a + b).

(** Conversion of an [int] to [size_t] (64 bits) and back
    ([static_cast<int>]). *)
Definition size_t_of_int (z : Z) : Z := z mod 2 ^ 64.
Definition int_of_size_t (z : Z) : Z := int_wrap z.

(** ** Data model *)

Inductive Color : Type := RED | BLACK.

Definition Color_eqb (a b : Color) : bool :=
  match a, b with
  | RED, RED | BLACK, BLACK => true
  | _, _ => false
  end.

(** [Node*]: an address in the arena, or [nullptr]. *)
Abbreviation ptr := (option nat).

Definition ptr_eqb (p q : ptr) : bool :=
  match p, q with
  | None, None => true
  | Some a, Some b => Nat.eqb a b
  | _, _ => false
  end.

Definition is_null (p : ptr) : bool :=
  match p with None => true | Some _ => false end.

Record Node : Type := mkNode {
  key : Z;
  color : Color;
  left : ptr;
  right : ptr;
  parent : ptr;
  size : Z
}.

Record RedBlackTree : Type := mkTree {
  heap : list Node;
  root : ptr
}.

(** The tree a default-constructed object holds. *)
Definition empty : RedBlackTree := mkTree [] None.

(** ** Outcomes

    A call returns normally, leaves by the [runtime_error] thrown in
    [rotateWithParent] (the tree as it is when the exception is thrown is
    kept), reads or writes through a pointer that is null or not
    allocated (undefined behaviour in C++), or does not come back from a
    loop. *)
Inductive outcome (A : Type) : Type :=
| Ok (a : A)
| Throw (t : RedBlackTree)
| NullDeref
| Diverge.

Arguments Ok {A} a.
Arguments Throw {A} t.
Arguments NullDeref {A}.
Arguments Diverge {A}.

#[global] Instance outcome_ret : MRet outcome := fun A a => Ok a.
#[global] Instance outcome_bind : MBind outcome := fun A B f m =>
  match m with
  | Ok a => f a
  | Throw t => Throw t
  | NullDeref => NullDeref
  | Diverge => Diverge
  end.

(** Mutating member functions: state passing over the tree object and the
    free store. *)
Definition M (A : Type) : Type := RedBlackTree -> outcome (A * RedBlackTree).

#[global] Instance M_ret : MRet M := fun A a t => Ok (a, t).
#[global] Instance M_bind : MBind M := fun A B f m t =>
  match m t with
  | Ok (a, t') => f a t'
  | Throw t' => Throw t'
  | NullDeref => NullDeref
  | Diverge => Diverge
  end.

(** *** Reading the free store *)

(** [*p] for reading. *)
Definition deref (h : list Node) (p : ptr) : outcome Node :=
  match p with
  | None => NullDeref
  | Some a =>
      match h !! a with
      | Some nd => Ok nd
      | None => NullDeref
      end
  end.

(** [p->f] in a [const] member function. *)
Definition field {A : Type} (h : list Node) (f : Node -> A) (p : ptr) : outcome A :=
  nd ← deref h p; mret (f nd).

(** *** Primitive effects *)

Definition get_root : M ptr := fun t => Ok (root t, t).
Definition set_root (p : ptr) : M unit := fun t => Ok (tt, mkTree (heap t) p).

(** [p->f] *)
Definition get {A : Type} (f : Node -> A) (p : ptr) : M A := fun t =>
  match deref (heap t) p with
  | Ok nd => Ok (f nd, t)
  | Throw t' => Throw t'
  | NullDeref => NullDeref
  | Diverge => Diverge
  end.

(** [p->f = v], as an update [upd] of the record at [p]. *)
Definition store (upd : Node -> Node) (p : ptr) : M unit := fun t =>
  match p with
  | None => NullDeref
  | Some a =>
      match heap t !! a with
      | Some nd => Ok (tt, mkTree (<[a := upd nd]> (heap t)) (root t))
      | None => NullDeref
      end
  end.

Definition with_color (v : Color) (nd : Node) : Node :=
  mkNode (key nd) v (left nd) (right nd) (parent nd) (size nd).
Definition with_left (v : ptr) (nd : Node) : Node :=
  mkNode (key nd) (color nd) v (right nd) (parent nd) (size nd).
Definition with_right (v : ptr) (nd : Node) : Node :=
  mkNode (key nd) (color nd) (left nd) v (parent nd) (size nd).
Definition with_parent (v : ptr) (nd : Node) : Node :=
  mkNode (key nd) (color nd) (left nd) (right nd) v (size nd).
Definition with_size (v : Z) (nd : Node) : Node :=
  mkNode (key nd) (color nd) (left nd) (right nd) (parent nd) v.

Definition set_color (p : ptr) (v : Color) : M unit := store (with_color v) p.
Definition set_left (p : ptr) (v : ptr) : M unit := store (with_left v) p.
Definition set_right (p : ptr) (v : ptr) : M unit := store (with_right v) p.
Definition set_parent (p : ptr) (v : ptr) : M unit := store (with_parent v) p.
Definition set_size (p : ptr) (v : Z) : M unit := store (with_size v) p.

(** [new Node]: the fresh address is the next free slot of the arena. *)
Definition alloc (nd : Node) : M ptr := fun t =>
  Ok (Some (length (heap t)), mkTree (heap t ++ [nd]) (root t)).

(** [throw runtime_error(...)] *)
Definition throw {A : Type} : M A := fun t => Throw t.

Definition diverge {A : Type} : M A := fun _ => Diverge.

(** Short-circuit [&&] and [||] over conditions that read the store. *)
Definition and_then (a b : M bool) : M bool := x ← a; if (x : bool) then b else mret false.
Definition or_else (a b : M bool) : M bool := x ← a; if (x : bool) then mret true else b.
Infix "&&&" := and_then (at level 40, left associativity).
Infix "|||" := or_else (at level 50, left associativity).

Definition color_is (p : ptr) (c : Color) : M bool :=
  pc ← get color p; mret (Color_eqb pc c).

(** A budget for the loops: a walk along child links or parent links that
    visits more records than the arena holds has entered a cycle. *)
Definition budget (h : list Node) : nat := S (length h).

(** ** Lookup *)

(** The [while] loop of [contains]. *)
Fixpoint contains_loop (fuel : nat) (h : list Node) (k : Z) (curr : ptr) : outcome bool :=
  match curr with
  | None => Ok false
  | Some _ =>
      match fuel with
      | O => Diverge
      | S fuel' =>
          ck ← field h key curr;
          if k =? ck then Ok true
          else if k <? ck then l ← field h left curr; contains_loop fuel' h k l
          else r ← field h right curr; contains_loop fuel' h k r
      end
  end.

Definition contains (t : RedBlackTree) (k : Z) : outcome bool :=
  contains_loop (budget (heap t)) (heap t) k (root t).

(** ** Rotation *)

(** [siblingOf] *)
Definition siblingOf (node : ptr) : M ptr :=
  p ← get parent node;
  match p with
  | None => mret None
  | Some _ =>
      pl ← get left p;
      if ptr_eqb node pl then get right p else get left p
  end.

(** [rotateWithParent]; every [node->parent] is read where the source
    reads it. *)
Definition rotateWithParent (node : ptr) : M unit :=
  p0 ← get parent node;
  if is_null p0 then throw
  else
    (* Step 1 *)
    p ← get parent node;
    pl ← get left p;
    child ← (if ptr_eqb node pl then
               c ← get right node;
               p ← get parent node;
               _ ← set_right node p;
               p ← get parent node;
               _ ← set_left p c;
               mret c
             else
               c ← get left node;
               p ← get parent node;
               _ ← set_left node p;
               p ← get parent node;
               _ ← set_right p c;
               mret c);
    (* Step 2 *)
    p ← get parent node;
    grandparent ← get parent p;
    _ ← (if negb (is_null grandparent) then
           gl ← get left grandparent;
           p ← get parent node;
           if ptr_eqb gl p then set_left grandparent node
           else set_right grandparent node
         else set_root node);
    (* Step 3 *)
    _ ← (if negb (is_null child) then
           p ← get parent node;
           set_parent child p
         else mret tt);
    oldParent ← get parent node;
    opp ← get parent oldParent;
    _ ← set_parent node opp;
    _ ← set_parent oldParent node;
    ns ← get size node;
    _ ← set_size oldParent ns;
    nl ← get left node;
    nls ← get size nl;
    nr ← get right node;
    nrs ← get size nr;
    set_size node (int_add (int_add nls nrs) 1).

(** ** Insertion *)

(** Step one of [insertKey], the descent.  [None] is the early
    [return nullptr]; [Some prev] is the normal exit of the loop. *)
Fixpoint insertKey_loop (fuel : nat) (k : Z) (prev curr : ptr) : M (option ptr) :=
  match curr with
  | None => mret (Some prev)
  | Some _ =>
      match fuel with
      | O => diverge
      | S fuel' =>
          sz ← get size curr;
          _ ← set_size curr (int_add sz 1);
          ck ← get key curr;
          if k =? ck then mret None
          else if k <? ck then l ← get left curr; insertKey_loop fuel' k curr l
          else r ← get right curr; insertKey_loop fuel' k curr r
      end
  end.

(** The body of [insertKey]: the new node, or [nullptr] when the key was
    found. *)
Definition insertKey_body (fuel : nat) (k : Z) : M ptr :=
  r ← get_root;
  found ← insertKey_loop fuel k None r;
  match found with
  | None => mret None
  | Some prev =>
      node ← alloc (mkNode k BLACK None None prev 1);
      _ ← (if is_null prev then set_root node
           else
             pk ← get key prev;
             if k <? pk then set_left prev node else set_right prev node);
      mret node
  end.

(** The [while (true)] loop of [fixupFrom]; the local [parent] of the source is [par] here, the name
    [parent] being the field. *)
Fixpoint fixupFrom_loop (fuel : nat) (node : ptr) : M unit :=
  match fuel with
  | O => diverge
  | S fuel' =>
      np ← get parent node;
      if is_null np then mret tt
      else
        par ← get parent node;
        grandparent ← get parent par;
        sibling ← siblingOf node;
        aunt ← siblingOf par;
        c1 ← (color_is par BLACK
              &&& (mret (is_null sibling) ||| color_is sibling BLACK));
        if (c1 : bool) then set_color node RED
        else
          c2 ← (color_is par BLACK
                &&& mret (negb (is_null sibling))
                &&& color_is sibling RED);
          if (c2 : bool) then set_color node RED
          else
            c3 ← (color_is par RED
                  &&& (mret (is_null aunt) ||| color_is aunt BLACK));
            if (c3 : bool) then
              pl ← get left par;
              gl ← get left grandparent;
              if negb (Bool.eqb (ptr_eqb node pl) (ptr_eqb par gl)) then
                _ ← rotateWithParent node;
                _ ← rotateWithParent node;
                set_color grandparent RED
              else
                _ ← rotateWithParent par;
                _ ← set_color par BLACK;
                _ ← set_color node RED;
                set_color grandparent RED
            else
              _ ← set_color par BLACK;
              _ ← set_color aunt BLACK;
              _ ← set_color node RED;
              fixupFrom_loop fuel' grandparent
  end.

Definition fixupFrom (node : ptr) : M unit :=
  fun t => fixupFrom_loop (budget (heap t)) node t.

Definition insertKey (k : Z) : M ptr :=
  fun t => insertKey_body (budget (heap t)) k t.

(** [insert] *)
Definition insert (k : Z) : M bool :=
  node ← insertKey k;
  if is_null node then mret false
  else
    _ ← fixupFrom node;
    mret true.

(** A sequence of [insert] calls; the results of the calls are dropped. *)
Fixpoint insert_all (ks : list Z) : M unit :=
  match ks with
  | [] => mret tt
  | k :: ks' => _ ← insert k; insert_all ks'
  end.

(** ** Rank *)

(** The [while] loop of [rankOf]. *)
Fixpoint rankOf_loop (fuel : nat) (h : list Node) (k : Z) (current : ptr) (rank : Z)
  : outcome Z :=
  match current with
  | None => Ok rank
  | Some _ =>
      ck ← field h key current;
      if ck =? k then Ok rank
      else
        match fuel with
        | O => Diverge
        | S fuel' =>
            if k >? ck then
              l ← field h left current;
              rank1 ← (if negb (is_null l) then
                         ls ← field h size l; mret (int_add rank ls)
                       else mret rank);
              r ← field h right current;
              rankOf_loop fuel' h k r (int_add rank1 1)
            else if k <? ck then
              l ← field h left current;
              rankOf_loop fuel' h k l rank
            else
              l ← field h left current;
              rank1 ← (if negb (is_null l) then
                         ls ← field h size l; mret (int_add rank (int_add ls 1))
                       else mret rank);
              rankOf_loop fuel' h k current rank1
        end
  end.

(** [rankOf]; the result is the [int] counter converted to [size_t]. *)
Definition rankOf (t : RedBlackTree) (k : Z) : outcome Z :=
  let h := heap t in
  let current := root t in
  rk ← field h key current;
  rank ← (if rk =? k then
            l ← field h left current;
            if negb (is_null l) then ls ← field h size l; mret (int_add 0 ls)
            else mret 0
          else mret 0);
  r ← rankOf_loop (budget h) h k current rank;
  mret (size_t_of_int r).

(** ** Select *)

(** The [while] loop of [select]; it ends on a null [current] or when
    [endLoop] is set, and hands [current] to the final [current->key]. *)
Fixpoint select_loop (fuel : nat) (h : list Node) (rank : Z) (current : ptr)
    (currentRank : Z) : outcome ptr :=
  match current with
  | None => Ok current
  | Some _ =>
      match fuel with
      | O => Diverge
      | S fuel' =>
          if int_of_size_t rank >? currentRank then
            r ← field h right current;
            l ← field h left r;
            cr ← (if negb (is_null l) then
                    ls ← field h size l; mret (int_add currentRank (int_add ls 1))
                  else mret currentRank);
            select_loop fuel' h rank r cr
          else if int_of_size_t rank <? currentRank then
            l ← field h left current;
            ls ← field h size l;
            select_loop fuel' h rank l ls
          else
            l ← field h left current;
            _ ← (if negb (is_null l) then
                   ls ← field h size l; mret (int_add currentRank ls)
                 else mret currentRank);
            Ok current
      end
  end.

(** [select] *)
Definition select (t : RedBlackTree) (rank : Z) : outcome Z :=
  let h := heap t in
  let current := root t in
  cr0 ← (if negb (is_null current) then
           l ← field h left current;
           if negb (is_null l) then field h size l else mret 0
         else mret 0);
  final ← select_loop (budget h) h rank current cr0;
  field h key final.

(** ** The tree a state represents, and the invariants of the data model *)

(** The linked structure below a pointer, with the address and the record
    of every node. *)
Inductive shape : Type :=
| Leaf
| Bin (l : shape) (a : nat) (nd : Node) (r : shape).

(** Reading the structure off the arena. *)
Fixpoint shape_of (fuel : nat) (h : list Node) (p : ptr) : option shape :=
  match p with
  | None => Some Leaf
  | Some a =>
      match fuel with
      | O => None
      | S fuel' =>
          nd ← h !! a;
          l ← shape_of fuel' h (left nd);
          r ← shape_of fuel' h (right nd);
          Some (Bin l a nd r)
      end
  end.

(** The same as a relation, without a budget. *)
Inductive is_shape (h : list Node) : ptr -> shape -> Prop :=
| is_shape_null : is_shape h None Leaf
| is_shape_node a nd l r :
    h !! a = Some nd ->
    is_shape h (left nd) l ->
    is_shape h (right nd) r ->
    is_shape h (Some a) (Bin l a nd r).

Fixpoint addrs (s : shape) : list nat :=
  match s with
  | Leaf => []
  | Bin l a _ r => addrs l ++ a :: addrs r
  end.

(** Keys in symmetric order. *)
Fixpoint keys (s : shape) : list Z :=
  match s with
  | Leaf => []
  | Bin l _ nd r => keys l ++ key nd :: keys r
  end.

Fixpoint height (s : shape) : nat :=
  match s with
  | Leaf => O
  | Bin l _ _ r => S (Nat.max (height l) (height r))
  end.

(** A state holds a tree when the links below [root] form one without
    sharing. *)
Definition is_tree (t : RedBlackTree) (s : shape) : Prop :=
  is_shape (heap t) (root t) s /\ NoDup (addrs s).

Definition root_color (s : shape) : Color :=
  match s with
  | Leaf => BLACK
  | Bin _ _ nd _ => color nd
  end.

(** [size] of a child position, 0 when absent. *)
Definition root_size (s : shape) : Z :=
  match s with
  | Leaf => 0
  | Bin _ _ nd _ => size nd
  end.

Definition root_parent_is (a : nat) (s : shape) : bool :=
  match s with
  | Leaf => true
  | Bin _ _ nd _ => ptr_eqb (parent nd) (Some a)
  end.

(** Invariant 1 *)
Fixpoint bst_ordered (s : shape) : bool :=
  match s with
  | Leaf => true
  | Bin l _ nd r =>
      forallb (fun k => k <? key nd) (keys l)
      && forallb (fun k => key nd <? k) (keys r)
      && bst_ordered l && bst_ordered r
  end.

(** Invariant 2 *)
Definition root_black (s : shape) : bool := Color_eqb (root_color s) BLACK.

(** Invariant 3 *)
Fixpoint no_red_red (s : shape) : bool :=
  match s with
  | Leaf => true
  | Bin l _ nd r =>
      (Color_eqb (color nd) BLACK
       || (Color_eqb (root_color l) BLACK && Color_eqb (root_color r) BLACK))
      && no_red_red l && no_red_red r
  end.

(** Invariant 4: the number of BLACK nodes on every path down to an absent
    child, when it is the same on all of them. *)
Fixpoint black_height (s : shape) : option nat :=
  match s with
  | Leaf => Some O
  | Bin l _ nd r =>
      bl ← black_height l;
      br ← black_height r;
      if Nat.eqb bl br
      then Some (if Color_eqb (color nd) BLACK then S bl else bl)
      else None
  end.

(** Invariant 5 *)
Fixpoint sizes_ok (s : shape) : bool :=
  match s with
  | Leaf => true
  | Bin l _ nd r =>
      (size nd =? 1 + root_size l + root_size r) && sizes_ok l && sizes_ok r
  end.

(** Invariant 6 *)
Fixpoint parents_ok (s : shape) : bool :=
  match s with
  | Leaf => true
  | Bin l a _ r =>
      root_parent_is a l && root_parent_is a r && parents_ok l && parents_ok r
  end.

Definition shape_of_tree (t : RedBlackTree) : option shape :=
  shape_of (budget (heap t)) (heap t) (root t).

Definition holds (inv : shape -> bool) (t : RedBlackTree) : bool :=
  match shape_of_tree t with
  | Some s => inv s
  | None => false
  end.

Definition size_invariant (t : RedBlackTree) : bool := holds sizes_ok t.

Definition invariants (t : RedBlackTree) : bool :=
  holds (fun s =>
           bst_ordered s && root_black s && no_red_red s
           && bool_decide (is_Some (black_height s))
           && sizes_ok s && parents_ok s) t.

(** 0-based position of [k] in the ascending order of the distinct keys
    [ks]: the number of keys below it. *)
Definition position (ks : list Z) (k : Z) : Z :=
  Z.of_nat (length (filter (fun x => x <? k) ks)).

(** What the loop of [rankOf] accumulates on the way down a tree: at a
    node with a smaller key, the [size] of its left child and one. *)
Fixpoint running_count (s : shape) (k : Z) (rank : Z) : Z :=
  match s with
  | Leaf => rank
  | Bin l _ nd r =>
      if key nd =? k then rank
      else if k >? key nd then
        running_count r k
          (int_add (match l with
                    | Leaf => rank
                    | Bin _ _ ln _ => int_add rank (size ln)
                    end) 1)
      else running_count l k rank
  end.

(** ** Assertions on outcomes *)

(** [wp m Q t]: run from [t], [m] does not leave by the exception, and
    when it returns, [Q] holds of the result and the state.  Undefined
    behaviour and a loop that does not come back are outside what it
    says. *)
Definition wp {A : Type} (m : M A) (Q : A -> RedBlackTree -> Prop) (t : RedBlackTree)
  : Prop :=
  match m t with
  | Ok (a, t') => Q a t'
  | Throw _ => False
  | NullDeref | Diverge => True
  end.

(** The [parent] field of the record at an address, when allocated. *)
Definition parent_at (t : RedBlackTree) (a : nat) : option ptr :=
  parent <$> heap t !! a.

(** A computation that writes no [parent] field and does not throw. *)
Definition keeps_parents {A : Type} (m : M A) : Prop :=
  forall t, wp m (fun _ t' => forall b, parent_at t' b = parent_at t b) t.

(** A computation that does not throw, whatever the state. *)
Definition no_throw {A : Type} (m : M A) : Prop :=
  forall t, wp m (fun _ _ => True) t.

(** ** States used below *)

Definition leaf_node (k : Z) (c : Color) (p : ptr) : Node :=
  mkNode k c None None p 1.

(** After [insert 1]. *)
Definition t_1 : RedBlackTree := mkTree [mkNode 1 BLACK None None None 1] (Some 0%nat).

(** After [insert 1] twice. *)
Definition t_1_1 : RedBlackTree := mkTree [mkNode 1 BLACK None None None 2] (Some 0%nat).

(** After [insert 2], [insert 1]. *)
Definition t_2_1 : RedBlackTree :=
  mkTree [mkNode 2 BLACK (Some 1%nat) None None 2;
          leaf_node 1 RED (Some 0%nat)] (Some 0%nat).

(** The tree [t_2_1] holds. *)
Definition s_2_1 : shape :=
  Bin (Bin Leaf 1%nat (leaf_node 1 RED (Some 0%nat)) Leaf)
      0%nat (mkNode 2 BLACK (Some 1%nat) None None 2)
      Leaf.

(** After [insert 1], [insert 2]. *)
Definition t_1_2 : RedBlackTree :=
  mkTree [mkNode 1 BLACK None (Some 1%nat) None 2;
          leaf_node 2 RED (Some 0%nat)] (Some 0%nat).

(** After [insert 10], [insert 5]. *)
Definition t_10_5 : RedBlackTree :=
  mkTree [mkNode 10 BLACK (Some 1%nat) None None 2;
          leaf_node 5 RED (Some 0%nat)] (Some 0%nat).

(** After [insert 10], [insert 5] and the [insertKey(7)] of a third
    [insert], before its [fixupFrom]. *)
Definition t_10_5_7_attached : RedBlackTree :=
  mkTree [mkNode 10 BLACK (Some 1%nat) None None 3;
          mkNode 5 RED None (Some 2%nat) (Some 0%nat) 2;
          leaf_node 7 BLACK (Some 1%nat)] (Some 0%nat).

(** After [insert 3], [insert 2] and the [insertKey(1)] of a third
    [insert], before its [fixupFrom]. *)
Definition t_3_2_1_attached : RedBlackTree :=
  mkTree [mkNode 3 BLACK (Some 1%nat) None None 3;
          mkNode 2 RED (Some 2%nat) None (Some 0%nat) 2;
          leaf_node 1 BLACK (Some 1%nat)] (Some 0%nat).

(** [t_3_2_1_attached] after [rotateWithParent] on the node of key 2. *)
Definition t_3_2_1_rotated : RedBlackTree :=
  mkTree [mkNode 3 BLACK None None (Some 1%nat) 2;
          mkNode 2 RED (Some 2%nat) (Some 0%nat) None 4;
          leaf_node 1 BLACK (Some 1%nat)] (Some 1%nat).

(** After [insert 3], [insert 2], [insert 1]. *)
Definition t_3_2_1 : RedBlackTree :=
  mkTree [mkNode 3 RED None None (Some 1%nat) 2;
          mkNode 2 BLACK (Some 2%nat) (Some 0%nat) None 4;
          leaf_node 1 RED (Some 1%nat)] (Some 1%nat).

(** After [insert 10], [insert 5], [insert 20], [insert 3]. *)
Definition t_4 : RedBlackTree :=
  mkTree [mkNode 10 BLACK (Some 1%nat) (Some 2%nat) None 4;
          mkNode 5 BLACK (Some 3%nat) None (Some 0%nat) 2;
          leaf_node 20 BLACK (Some 0%nat);
          leaf_node 3 RED (Some 1%nat)] (Some 0%nat).

(** After the inserts of 10, 5, 20, 3, 7, 15, 25. *)
Definition t_7 : RedBlackTree :=
  mkTree [mkNode 10 BLACK (Some 1%nat) (Some 2%nat) None 7;
          mkNode 5 BLACK (Some 3%nat) (Some 4%nat) (Some 0%nat) 3;
          mkNode 20 BLACK (Some 5%nat) (Some 6%nat) (Some 0%nat) 3;
          leaf_node 3 RED (Some 1%nat);
          leaf_node 7 RED (Some 1%nat);
          leaf_node 15 RED (Some 2%nat);
          leaf_node 25 RED (Some 2%nat)] (Some 0%nat).

(** [t_4] after one more [insert 3]. *)
Definition t_4_again_3 : RedBlackTree :=
  mkTree [mkNode 10 BLACK (Some 1%nat) (Some 2%nat) None 5;
          mkNode 5 BLACK (Some 3%nat) None (Some 0%nat) 3;
          leaf_node 20 BLACK (Some 0%nat);
          mkNode 3 RED None None (Some 1%nat) 2] (Some 0%nat).

(** ** Relations between states *)

(** Two records that agree on everything but [size]. *)
Definition same_but_size (nd nd' : Node) : Prop :=
  key nd' = key nd /\ color nd' = color nd /\ left nd' = left nd
  /\ right nd' = right nd /\ parent nd' = parent nd.

(** Two states with the same root and the same nodes up to the [size]
    counters. *)
Definition sizes_only (t t' : RedBlackTree) : Prop :=
  root t' = root t /\ Forall2 same_but_size (heap t) (heap t').

(** ** What a call leaves as it was *)

(** [post m Q t]: when [m] returns from [t], [Q] holds of the result and
    the state it leaves. *)
Definition post {A : Type} (m : M A) (Q : A -> RedBlackTree -> Prop) (t : RedBlackTree)
  : Prop :=
  match m t with
  | Ok (a, t') => Q a t'
  | _ => True
  end.

(** The keys held in the arena, by address. *)
Definition stored_keys (t : RedBlackTree) : list Z := map key (heap t).

(** A computation that allocates nothing and writes no [key]. *)
Definition keeps_keys {A : Type} (m : M A) : Prop :=
  forall t, post m (fun _ t' => stored_keys t' = stored_keys t) t.

(** ** What [rankOf] leaves out *)

(** The [size] of the left child of the node that holds [k], looked up in
    search-tree order; 0 when no node holds [k]. *)
Fixpoint left_size_at (s : shape) (k : Z) : Z :=
  match s with
  | Leaf => 0
  | Bin l _ nd r =>
      if key nd =? k then root_size l
      else if k >? key nd then left_size_at r k
      else left_size_at l k
  end.

(** The same, but 0 for the key at the root. *)
Definition shortfall (s : shape) (k : Z) : Z :=
  match s with
  | Leaf => 0
  | Bin _ _ nd _ => if key nd =? k then 0 else left_size_at s k
  end.

(** ** Teardown *)

(** [delete] is recorded as the list of the addresses handed back, oldest
    first.  A node that was deleted is no longer allocated: an access to it
    is undefined, like an access through null. *)
Definition live (freed : list nat) (p : ptr) : M unit := fun t =>
  match p with
  | Some a => if bool_decide (a ∈ freed) then NullDeref else Ok (tt, t)
  | None => Ok (tt, t)
  end.

Definition get_live {A : Type} (freed : list nat) (f : Node -> A) (p : ptr) : M A :=
  _ ← live freed p; get f p.

Definition store_live (freed : list nat) (upd : Node -> Node) (p : ptr) : M unit :=
  _ ← live freed p; store upd p.

(** The loop of [~RedBlackTree]; the result is the list of the nodes
    deleted, in the order of their deletion. *)
Fixpoint destructor_loop (fuel : nat) (freed : list nat) : M (list nat) :=
  r ← get_root;
  match r with
  | None => mret freed
  | Some a =>
      match fuel with
      | O => diverge
      | S fuel' =>
          l ← get_live freed left r;
          if is_null l then
            (* Case 1 *)
            next ← get_live freed right r;
            _ ← live freed r;
            _ ← set_root next;
            destructor_loop fuel' (freed ++ [a])
          else
            (* Case 2 *)
            leftChild ← get_live freed left r;
            lr ← get_live freed right leftChild;
            _ ← store_live freed (with_left lr) r;
            _ ← store_live freed (with_right r) leftChild;
            _ ← set_root leftChild;
            destructor_loop fuel' freed
      end
  end.

(** [~RedBlackTree] *)
Definition destructor (fuel : nat) : M (list nat) := destructor_loop fuel [].

(** The number of passes the loop makes over a tree: one per node to
    delete it, and one rotation for every node that sits in a left
    subtree of the right spine, each time it does. *)
Fixpoint teardown_passes (s : shape) : nat :=
  match s with
  | Leaf => O
  | Bin l _ _ r => S (2 * length (addrs l) + teardown_passes r)
  end.

(** ** The tree after [insertKey] *)

(** The tree [insertKey] leaves for a key [k] it does not find: every node
    on the way down has its [size] counted up, and a BLACK leaf at the new
    address [new] hangs where the descent ran off, with the last node
    visited as its [parent] ([prev] when the tree is empty). *)
Fixpoint attach (k : Z) (new : nat) (prev : ptr) (s : shape) : shape :=
  match s with
  | Leaf => Bin Leaf new (mkNode k BLACK None None prev 1) Leaf
  | Bin l a nd r =>
      let nd1 := with_size (int_add (size nd) 1) nd in
      if k <? key nd then
        Bin (attach k new (Some a) l) a
            (match l with Leaf => with_left (Some new) nd1 | _ => nd1 end) r
      else
        Bin l a
            (match r with Leaf => with_right (Some new) nd1 | _ => nd1 end)
            (attach k new (Some a) r)
  end.

(** The intermediate tree, when the descent has run off and nothing is
    linked yet. *)
Fixpoint counted_up (k : Z) (s : shape) : shape :=
  match s with
  | Leaf => Leaf
  | Bin l a nd r =>
      let nd1 := with_size (int_add (size nd) 1) nd in
      if k <? key nd then Bin (counted_up k l) a nd1 r
      else Bin l a nd1 (counted_up k r)
  end.

(** The last node of the descent. *)
Fixpoint last_visited (k : Z) (prev : ptr) (s : shape) : ptr :=
  match s with
  | Leaf => prev
  | Bin l a nd r =>
      if k <? key nd then last_visited k (Some a) l
      else last_visited k (Some a) r
  end.

(** ** A new key below a BLACK node *)

(** A pointer that is null or points to an allocated node. *)
Definition valid_ptr (h : list Node) (p : ptr) : Prop :=
  match p with
  | None => True
  | Some a => is_Some (h !! a)
  end.

(** The tree with the node at address [x] given the colour [c]. *)
Fixpoint recolor (x : nat) (c : Color) (s : shape) : shape :=
  match s with
  | Leaf => Leaf
  | Bin l a nd r =>
      Bin (recolor x c l) a (if Nat.eqb a x then with_color c nd else nd)
          (recolor x c r)
  end.

(** Whether the search for [k] runs off the tree below a BLACK node. *)
Fixpoint lands_under_black (k : Z) (s : shape) : bool :=
  match s with
  | Leaf => true
  | Bin l _ nd r =>
      if k <? key nd then
        match l with
        | Leaf => Color_eqb (color nd) BLACK
        | Bin _ _ _ _ => lands_under_black k l
        end
      else
        match r with
        | Leaf => Color_eqb (color nd) BLACK
        | Bin _ _ _ _ => lands_under_black k r
        end
  end.

(** [parent] of the root record, null in every tree built by [insert]. *)
Definition root_parent (s : shape) : ptr :=
  match s with
  | Leaf => None
  | Bin _ _ nd _ => parent nd
  end.

(** The six invariants of the data model, on the tree itself. *)
Definition six_invariants (s : shape) : bool :=
  bst_ordered s && root_black s && no_red_red s
  && bool_decide (is_Some (black_height s))
  && sizes_ok s && parents_ok s.

(** The record [nd] sits at address [a] in the tree. *)
Fixpoint node_in (a : nat) (nd : Node) (s : shape) : Prop :=
  match s with
  | Leaf => False
  | Bin l b x r => (b = a /\ x = nd) \/ node_in a nd l \/ node_in a nd r
  end.

(** ** A new key on the inner side of a RED node *)

Definition root_addr (s : shape) : ptr :=
  match s with
  | Leaf => None
  | Bin _ a _ _ => Some a
  end.

(** The child pointers of the records are the roots of the subtrees. *)
Fixpoint linked (s : shape) : Prop :=
  match s with
  | Leaf => True
  | Bin l _ nd r =>
      left nd = root_addr l /\ right nd = root_addr r /\ linked l /\ linked r
  end.

Definition is_leaf (s : shape) : bool :=
  match s with Leaf => true | Bin _ _ _ _ => false end.

(** Whether the search for [k] runs off the tree on the inner side of a
    RED node whose sibling is absent or BLACK: below the right of a left
    child, or below the left of a right child.  This is the zig-zag case
    of [fixupFrom] for the new leaf. *)
Fixpoint lands_zigzag (k : Z) (s : shape) : bool :=
  match s with
  | Leaf => false
  | Bin l _ nd r =>
      if k <? key nd then
        match l with
        | Leaf => false
        | Bin _ _ lnd lr =>
            (negb (k <? key lnd) && Color_eqb (color lnd) RED && is_leaf lr
             && Color_eqb (root_color r) BLACK)
            || lands_zigzag k l
        end
      else
        match r with
        | Leaf => false
        | Bin rl _ rnd _ =>
            ((k <? key rnd) && Color_eqb (color rnd) RED && is_leaf rl
             && Color_eqb (root_color l) BLACK)
            || lands_zigzag k r
        end
  end.

(** After the inserts of 10, 5: the tree [t_10_5] holds. *)
Definition s_10_5 : shape :=
  Bin (Bin Leaf 1%nat (leaf_node 5 RED (Some 0%nat)) Leaf)
      0%nat (mkNode 10 BLACK (Some 1%nat) None None 2)
      Leaf.

(** * Properties *)

(** ** The states above are the ones the code reaches *)

Lemma reach_t_1 : insert_all [1] empty = Ok (tt, t_1).
Proof. reflexivity. Qed.

Lemma reach_t_2_1 : insert_all [2; 1] empty = Ok (tt, t_2_1).
Proof. reflexivity. Qed.

Lemma reach_t_10_5 : insert_all [10; 5] empty = Ok (tt, t_10_5).
Proof. reflexivity. Qed.

Lemma reach_t_10_5_7_attached :
  (_ ← insert_all [10; 5]; insertKey 7) empty = Ok (Some 2%nat, t_10_5_7_attached).
Proof. reflexivity. Qed.

Lemma reach_t_3_2_1_attached :
  (_ ← insert_all [3; 2]; insertKey 1) empty = Ok (Some 2%nat, t_3_2_1_attached).
Proof. reflexivity. Qed.

Lemma reach_t_4 : insert_all [10; 5; 20; 3] empty = Ok (tt, t_4).
Proof. reflexivity. Qed.

Lemma reach_t_7 : insert_all [10; 5; 20; 3; 7; 15; 25] empty = Ok (tt, t_7).
Proof. reflexivity. Qed.

(** The invariants are not vacuous: the seven-key tree, built without a
    rotation, has all six. *)
Lemma invariants_t_7 : invariants t_7 = true.
Proof. reflexivity. Qed.

Lemma position_sorted_example :
  map (position [10; 5; 20; 3]) [3; 5; 10; 20] = [0; 1; 2; 3].
Proof. reflexivity. Qed.

(** ** Invariants after insertion *)

(** C1 (does not hold of the code).  After every sequence of [insert]
    calls on the empty tree the six invariants should hold.  Inserting 3,
    2, 1 ends in a state whose [size] counters are wrong (the rotation of
    the zig-zig case leaves 4 at the root of three nodes and 2 at a leaf);
    inserting 10, 5, 7 does not return at all (the rotation of the zig-zag
    case reads [size] through the null right child of the new node); and
    inserting 1 twice leaves [size] 2 at the only node. *)
Theorem insert_sequences_break_invariants :
  (insert_all [3; 2; 1] empty = Ok (tt, t_3_2_1)
   /\ size_invariant t_3_2_1 = false
   /\ invariants t_3_2_1 = false)
  /\ insert_all [10; 5; 7] empty = NullDeref
  /\ (insert_all [1; 1] empty = Ok (tt, t_1_1)
      /\ size_invariant t_1_1 = false
      /\ invariants t_1_1 = false).
Proof. repeat split; reflexivity. Qed.

(** ** Duplicate keys *)

(** C2 (does not hold of the code).  [insert] of a key that is present
    should return [false] and change nothing.  It returns [false], but
    [insertKey] has incremented [size] at every node from the root down to
    the node that holds the key before it finds the key: on the one-node
    tree the root's [size] becomes 2, and [insert 3] on the tree of keys
    10, 5, 20, 3 adds one to the counters of 10, 5 and 3. *)
Theorem duplicate_insert_increments_sizes :
  insert 1 t_1 = Ok (false, t_1_1)
  /\ t_1_1 <> t_1
  /\ size_invariant t_1 = true
  /\ size_invariant t_1_1 = false
  /\ contains t_4 3 = Ok true
  /\ insert 3 t_4 = Ok (false, t_4_again_3)
  /\ map size (heap t_4) = [4; 2; 1; 1]
  /\ map size (heap t_4_again_3) = [5; 3; 1; 2].
Proof. repeat split; try reflexivity. discriminate. Qed.

(** The increment is systematic: [insert] of the key at the root returns
    [false] and leaves the root with [size] one higher, on every state. *)
Lemma insert_root_key_again t a nd :
  root t = Some a ->
  heap t !! a = Some nd ->
  insert (key nd) t
  = Ok (false, mkTree (<[a := with_size (int_add (size nd) 1) nd]> (heap t)) (root t)).
Proof.
  destruct t as [h r]. cbn [root heap]. intros -> E.
  pose proof (lookup_lt_Some _ _ _ E) as Hlt.
  unfold insert, insertKey, insertKey_body, budget, get_root, mbind, M_bind.
  cbn [insertKey_loop heap root].
  unfold mbind, M_bind, get, set_size, store, deref. cbn [heap root].
  repeat (rewrite E; cbn [heap root]).
  rewrite list_lookup_insert_eq by exact Hlt. cbn [with_size key].
  rewrite Z.eqb_refl. reflexivity.
Qed.

(** ** Membership *)

(** C3 (does not hold of the code).  After inserting distinct keys in any
    order, [contains] should tell exactly the inserted keys.  For the keys
    10, 5, 7 the third [insert] does not return: 7 goes below the red 5 on
    the inside, the zig-zag case rotates the new node, and
    [rotateWithParent] reads [node->right->size] with [node->right] null.
    On the empty tree [contains] is [false] for every key. *)
Theorem insert_10_5_7_never_returns :
  NoDup [10; 5; 7]
  /\ insert_all [10; 5] empty = Ok (tt, t_10_5)
  /\ insert 7 t_10_5 = NullDeref
  /\ insert_all [10; 5; 7] empty = NullDeref
  /\ (forall k, contains empty k = Ok false).
Proof.
  repeat split; try reflexivity.
  apply (bool_decide_unpack _). vm_compute. reflexivity.
Qed.

(** ** Rank and select *)

(** C4 (does not hold of the code).  [rankOf] of a present key should be
    its 0-based position in ascending order.  The loop of [rankOf] stops as
    soon as [current] holds the key, so the branch that would add the size
    of the left subtree never runs; only a key at the root gets it.  In the
    tree of keys 10, 5, 20, 3 the key 5 is second in order and [rankOf]
    returns 0. *)
Theorem rankOf_inner_key_misses_left_subtree :
  insert_all [10; 5; 20; 3] empty = Ok (tt, t_4)
  /\ contains t_4 5 = Ok true
  /\ rankOf t_4 5 = Ok 0
  /\ position [10; 5; 20; 3] 5 = 1.
Proof. repeat split; reflexivity. Qed.

(** C5 (does not hold of the code).  [select r] should return the key at
    position [r].  On a left descent the code sets [currentRank] to the
    [size] of the node it moves to, not of that node's left child, and at
    a node without a left child it reads [size] through null; on a right
    descent to a node without a left child it adds nothing, where one is
    due.  [select 0] on the tree of keys 2, 1 and [select 1] on the tree of
    keys 1, 2 do not return, and [select 1] on the tree of keys 10, 5, 20,
    3 returns 3, the key at position 0. *)
Theorem select_descent_wrong :
  insert_all [2; 1] empty = Ok (tt, t_2_1)
  /\ select t_2_1 0 = NullDeref
  /\ insert_all [1; 2] empty = Ok (tt, t_1_2)
  /\ select t_1_2 1 = NullDeref
  /\ insert_all [10; 5; 20; 3] empty = Ok (tt, t_4)
  /\ select t_4 1 = Ok 3
  /\ position [10; 5; 20; 3] 3 = 0
  /\ position [10; 5; 20; 3] 5 = 1.
Proof. repeat split; reflexivity. Qed.

(** C6 (does not hold of the code).  [rankOf] and [select] should be
    inverse to each other.  On the tree of keys 10, 5, 20, 3:
    [rankOf (select 1)] is 0, and [select (rankOf 5)] does not return. *)
Theorem rank_select_not_inverse :
  insert_all [10; 5; 20; 3] empty = Ok (tt, t_4)
  /\ (k ← select t_4 1; rankOf t_4 k) = Ok 0
  /\ contains t_4 5 = Ok true
  /\ (r ← rankOf t_4 5; select t_4 r) = NullDeref.
Proof. repeat split; reflexivity. Qed.

(** ** Rotation and the size counters *)

(** C7 (does not hold of the code).  [rotateWithParent] should leave the
    [size] counters right.  Both states below are handed to it by [insert]
    and have right counters.  Rotating the new leaf 7 above 5 does not
    return: the leaf's right child stays null and its [size] is read.
    Rotating 2 above 3 gives the old parent 3 the [size] 2 that the node 2
    had, although 3 is left without children, and the node 2 then gets
    1 + 2 + 1 = 4 for a subtree of three nodes. *)
Theorem rotateWithParent_spoils_sizes :
  size_invariant t_10_5_7_attached = true
  /\ rotateWithParent (Some 2%nat) t_10_5_7_attached = NullDeref
  /\ size_invariant t_3_2_1_attached = true
  /\ rotateWithParent (Some 1%nat) t_3_2_1_attached = Ok (tt, t_3_2_1_rotated)
  /\ map size (heap t_3_2_1_rotated) = [2; 4; 1]
  /\ size_invariant t_3_2_1_rotated = false.
Proof. repeat split; reflexivity. Qed.

(** ** The end-to-end scenario *)

(** C9 (does not hold of the code).  After the inserts of 10, 5, 20, 3, 7,
    15, 25 the two [contains], the two [rankOf] and [select 3] give the
    expected results; [select 0] and [select 6] do not return: the first
    reads [size] through the null left child of the node 3, the second
    moves to the null right child of the node 25 and reads its [left]. *)
Theorem scenario_seven_keys :
  insert_all [10; 5; 20; 3; 7; 15; 25] empty = Ok (tt, t_7)
  /\ contains t_7 7 = Ok true
  /\ contains t_7 8 = Ok false
  /\ rankOf t_7 3 = Ok 0
  /\ rankOf t_7 25 = Ok 6
  /\ select t_7 0 = NullDeref
  /\ select t_7 6 = NullDeref
  /\ select t_7 3 = Ok 10.
Proof. repeat split; reflexivity. Qed.

(** ** The exception of [rotateWithParent] *)

Create HintDb kp.
Create HintDb nothrow.

Lemma wp_ret {A} (a : A) Q t : Q a t -> wp (mret a) Q t.
Proof. intros H. exact H. Qed.

Lemma wp_mono {A} (m : M A) (Q Q' : A -> RedBlackTree -> Prop) t :
  (forall a t', Q a t' -> Q' a t') -> wp m Q t -> wp m Q' t.
Proof.
  unfold wp. intros HQ. destruct (m t) as [[a t']| | |]; auto.
Qed.

Lemma wp_bind {A B} (m : M A) (f : A -> M B) Q t :
  wp m (fun a t' => wp (f a) Q t') t -> wp (m ≫= f) Q t.
Proof.
  unfold wp, mbind, M_bind. destruct (m t) as [[a t']| | |]; auto.
Qed.

Lemma wp_seq {A B} (m : M A) (f : A -> M B) (R : A -> RedBlackTree -> Prop) Q t :
  wp m R t -> (forall a t', R a t' -> wp (f a) Q t') -> wp (m ≫= f) Q t.
Proof.
  intros Hm Hf. apply wp_bind. revert Hm. apply wp_mono. exact Hf.
Qed.

Lemma wp_get {A} (f : Node -> A) p Q t :
  (forall a nd, p = Some a -> heap t !! a = Some nd -> Q (f nd) t) ->
  wp (get f p) Q t.
Proof.
  intros H. unfold wp, get, deref. destruct p as [a|]; [|exact I].
  destruct (heap t !! a) as [nd|] eqn:E; [|exact I]. eauto.
Qed.

Lemma wp_get_parent p Q t :
  (forall a v, p = Some a -> parent_at t a = Some v -> Q v t) ->
  wp (get parent p) Q t.
Proof.
  intros H. apply wp_get. intros a nd -> E. apply (H a); [reflexivity|].
  unfold parent_at. rewrite E. reflexivity.
Qed.

Lemma wp_store upd p Q t :
  (forall a nd, p = Some a -> heap t !! a = Some nd ->
                Q tt (mkTree (<[a := upd nd]> (heap t)) (root t))) ->
  wp (store upd p) Q t.
Proof.
  intros H. unfold wp, store. destruct p as [a|]; [|exact I].
  destruct (heap t !! a) as [nd|] eqn:E; [|exact I]. eauto.
Qed.

(** *** The [parent] fields across a write *)

Lemma parent_at_store upd t a nd r b :
  heap t !! a = Some nd ->
  parent_at (mkTree (<[a := upd nd]> (heap t)) r) b
  = if decide (a = b) then Some (parent (upd nd)) else parent_at t b.
Proof.
  intros E. unfold parent_at. cbn [heap]. case_decide as D.
  - subst b. rewrite list_lookup_insert_eq; [reflexivity|].
    eapply lookup_lt_Some, E.
  - rewrite list_lookup_insert_ne; [reflexivity|exact D].
Qed.

Lemma parent_at_store_keep upd t a nd r b :
  heap t !! a = Some nd ->
  parent (upd nd) = parent nd ->
  parent_at (mkTree (<[a := upd nd]> (heap t)) r) b = parent_at t b.
Proof.
  intros E Hp. rewrite (parent_at_store upd t a nd r b E). case_decide as D; [|reflexivity].
  subst b. unfold parent_at. rewrite E, Hp. reflexivity.
Qed.

(** *** Computations that leave the [parent] fields alone *)

Lemma keeps_parents_ret {A} (a : A) : keeps_parents (mret a).
Proof. intros t. apply wp_ret. reflexivity. Qed.

Lemma keeps_parents_bind {A B} (m : M A) (f : A -> M B) :
  keeps_parents m -> (forall a, keeps_parents (f a)) -> keeps_parents (m ≫= f).
Proof.
  intros Hm Hf t. eapply wp_seq; [apply Hm|].
  intros a t' K. cbn beta in K. eapply wp_mono; [|apply Hf].
  intros b t'' K' x. cbn beta in K'. rewrite K'. apply K.
Qed.

Lemma keeps_parents_if {A} (c : bool) (m1 m2 : M A) :
  keeps_parents m1 -> keeps_parents m2 -> keeps_parents (if c then m1 else m2).
Proof. destruct c; auto. Qed.

Lemma keeps_parents_get {A} (f : Node -> A) p : keeps_parents (get f p).
Proof. intros t. apply wp_get. reflexivity. Qed.

Lemma keeps_parents_store upd p :
  (forall nd, parent (upd nd) = parent nd) -> keeps_parents (store upd p).
Proof.
  intros Hu t. apply wp_store. intros a nd -> E b.
  apply parent_at_store_keep; auto.
Qed.

Lemma keeps_parents_set_color p v : keeps_parents (set_color p v).
Proof. apply keeps_parents_store. reflexivity. Qed.

Lemma keeps_parents_set_left p v : keeps_parents (set_left p v).
Proof. apply keeps_parents_store. reflexivity. Qed.

Lemma keeps_parents_set_right p v : keeps_parents (set_right p v).
Proof. apply keeps_parents_store. reflexivity. Qed.

Lemma keeps_parents_set_size p v : keeps_parents (set_size p v).
Proof. apply keeps_parents_store. reflexivity. Qed.

Lemma keeps_parents_set_root p : keeps_parents (set_root p).
Proof. intros t b. reflexivity. Qed.

Lemma keeps_parents_diverge {A} : keeps_parents (@diverge A).
Proof. intros t. exact I. Qed.

#[local] Hint Resolve keeps_parents_ret keeps_parents_bind keeps_parents_if
  keeps_parents_get keeps_parents_set_color keeps_parents_set_left
  keeps_parents_set_right keeps_parents_set_size keeps_parents_set_root
  keeps_parents_diverge : kp.

Lemma keeps_parents_siblingOf node : keeps_parents (siblingOf node).
Proof.
  unfold siblingOf. apply keeps_parents_bind; [auto with kp|].
  intros [p|]; auto 6 with kp.
Qed.

Lemma keeps_parents_color_is p c : keeps_parents (color_is p c).
Proof. unfold color_is. auto with kp. Qed.

Lemma keeps_parents_and_then a b :
  keeps_parents a -> keeps_parents b -> keeps_parents (a &&& b).
Proof. unfold and_then. auto with kp. Qed.

Lemma keeps_parents_or_else a b :
  keeps_parents a -> keeps_parents b -> keeps_parents (a ||| b).
Proof. unfold or_else. auto with kp. Qed.

#[local] Hint Resolve keeps_parents_siblingOf keeps_parents_color_is
  keeps_parents_and_then keeps_parents_or_else : kp.

(** Frame rule: across such a computation what is known of the [parent]
    fields stays. *)
Lemma wp_keeps {A B} (m : M A) (f : A -> M B) Q t :
  keeps_parents m ->
  (forall a t', (forall b, parent_at t' b = parent_at t b) -> wp (f a) Q t') ->
  wp (m ≫= f) Q t.
Proof. intros Hm Hf. eapply wp_seq; [apply Hm|exact Hf]. Qed.

Lemma wp_keeps_last {A} (m : M A) (Q : A -> RedBlackTree -> Prop) t :
  keeps_parents m ->
  (forall a t', (forall b, parent_at t' b = parent_at t b) -> Q a t') ->
  wp m Q t.
Proof. intros Hm HQ. eapply wp_mono; [|apply Hm]. exact HQ. Qed.

(** *** Computations that do not throw *)

Lemma keeps_parents_no_throw {A} (m : M A) : keeps_parents m -> no_throw m.
Proof. intros H t. eapply wp_mono; [|apply H]. auto. Qed.

Lemma no_throw_bind {A B} (m : M A) (f : A -> M B) :
  no_throw m -> (forall a, no_throw (f a)) -> no_throw (m ≫= f).
Proof. intros Hm Hf t. eapply wp_seq; [apply Hm|]. intros a t' _. apply Hf. Qed.

Lemma no_throw_if {A} (c : bool) (m1 m2 : M A) :
  no_throw m1 -> no_throw m2 -> no_throw (if c then m1 else m2).
Proof. destruct c; auto. Qed.

Lemma no_throw_ret {A} (a : A) : no_throw (mret a).
Proof. intros t. exact I. Qed.

Lemma no_throw_get {A} (f : Node -> A) p : no_throw (get f p).
Proof. apply keeps_parents_no_throw. auto with kp. Qed.

Lemma no_throw_store upd p : no_throw (store upd p).
Proof. intros t. apply wp_store. auto. Qed.

Lemma no_throw_set_parent p v : no_throw (set_parent p v).
Proof. apply no_throw_store. Qed.

Lemma no_throw_set_color p v : no_throw (set_color p v).
Proof. apply no_throw_store. Qed.

Lemma no_throw_set_left p v : no_throw (set_left p v).
Proof. apply no_throw_store. Qed.

Lemma no_throw_set_right p v : no_throw (set_right p v).
Proof. apply no_throw_store. Qed.

Lemma no_throw_set_size p v : no_throw (set_size p v).
Proof. apply no_throw_store. Qed.

Lemma no_throw_set_root p : no_throw (set_root p).
Proof. intros t. exact I. Qed.

Lemma no_throw_alloc nd : no_throw (alloc nd).
Proof. intros t. exact I. Qed.

Lemma no_throw_get_root : no_throw get_root.
Proof. intros t. exact I. Qed.

Lemma no_throw_diverge {A} : no_throw (@diverge A).
Proof. intros t. exact I. Qed.

#[local] Hint Resolve no_throw_bind no_throw_if no_throw_ret no_throw_get
  no_throw_set_parent no_throw_set_color no_throw_set_left no_throw_set_right
  no_throw_set_size no_throw_set_root no_throw_alloc no_throw_get_root
  no_throw_diverge : nothrow.


Ltac carry K :=
  repeat match goal with
         | H : parent_at _ _ = _ |- _ => rewrite <- K in H
         end.

Ltac by_no_throw :=
  match goal with
  | |- wp ?m _ ?t => cut (no_throw m); [intros NT; apply NT|]
  end.

(** *** [rotateWithParent] on a node that has a parent *)

(** The only [throw] is behind the test of [node->parent]. *)
Lemma rotateWithParent_no_throw n q t :
  parent_at t n = Some (Some q) ->
  wp (rotateWithParent (Some n)) (fun _ _ => True) t.
Proof.
  intros Hn. unfold rotateWithParent.
  apply wp_bind, wp_get_parent. intros a v [= <-] Hv.
  rewrite Hn in Hv. injection Hv as <-. cbn [is_null].
  by_no_throw. auto 60 with nothrow.
Qed.

(** After a rotation of a node whose parent has a parent, the node still
    has a parent, also when some of the pointers involved coincide. *)
Lemma rotateWithParent_keeps_a_parent n p g t :
  parent_at t n = Some (Some p) ->
  parent_at t p = Some (Some g) ->
  wp (rotateWithParent (Some n))
     (fun _ t' => exists y, parent_at t' n = Some (Some y)) t.
Proof.
  intros Hn Hp. unfold rotateWithParent.
  apply wp_bind, wp_get_parent. intros a v [= <-] Hv.
  rewrite Hn in Hv. injection Hv as <-. cbn [is_null].
  (* step 1 and step 2 write [left], [right] and [root] only *)
  apply wp_keeps; [auto with kp|]. intros p1 t1 K1. carry K1. clear K1 t.
  apply wp_keeps; [auto with kp|]. intros pl t2 K2. carry K2. clear K2 t1.
  apply wp_keeps; [auto 20 with kp|]. intros child t3 K3. carry K3. clear K3 t2.
  apply wp_keeps; [auto with kp|]. intros p2 t4 K4. carry K4. clear K4 t3.
  apply wp_keeps; [auto with kp|]. intros gp t5 K5. carry K5. clear K5 t4.
  apply wp_keeps; [auto 20 with kp|]. intros _ t6 K6. carry K6. clear K6 t5.
  (* step 3: [child->parent] *)
  apply wp_seq with
    (R := fun _ t' => parent_at t' n = Some (Some p)
                      /\ exists x, parent_at t' p = Some (Some x)).
  { destruct child as [c|]; cbn [is_null negb].
    - apply wp_bind, wp_get_parent. intros a v [= <-] Hv.
      rewrite Hn in Hv. injection Hv as <-.
      apply wp_store. intros a nd [= <-] E.
      rewrite !(parent_at_store _ _ _ _ _ _ E). cbn [with_parent parent].
      split; repeat case_decide; eauto.
    - apply wp_ret. eauto. }
  clear Hn Hp t6. intros _ t [Hn [x Hp]].
  (* [node->parent] and [oldParent->parent] *)
  apply wp_bind, wp_get_parent. intros a v [= <-] Hv.
  rewrite Hn in Hv. injection Hv as <-.
  apply wp_bind, wp_get_parent. intros a v [= <-] Hv.
  rewrite Hp in Hv. injection Hv as <-.
  apply wp_bind, wp_store. intros a nd [= <-] E.
  apply wp_seq with (R := fun _ t' => exists y, parent_at t' n = Some (Some y)).
  { apply wp_store. intros a nd' [= <-] E'.
    rewrite (parent_at_store _ _ _ _ _ _ E'). cbn [with_parent parent].
    case_decide; [eauto|].
    rewrite (parent_at_store _ _ _ _ _ _ E). cbn [with_parent parent].
    case_decide; [eauto|congruence]. }
  clear. intros _ t [y Hn].
  (* the [size] counters *)
  apply wp_keeps_last; [auto 30 with kp|].
  intros _ t' K. rewrite K. eauto.
Qed.

(** *** [fixupFrom] and [insert] *)

(** Every rotation [fixupFrom] asks for is of a node whose parent it has
    just read through: the first rotation of the zig-zag case and the
    rotation of the zig-zig case come after [grandparent->left], and the
    second rotation of the zig-zag case comes after the first. *)
Lemma fixupFrom_loop_no_throw fuel : forall node, no_throw (fixupFrom_loop fuel node).
Proof.
  induction fuel as [|fuel IH]; intros node t; cbn [fixupFrom_loop]; [exact I|].
  apply wp_bind, wp_get_parent. intros n np -> Hn.
  destruct np as [p|]; cbn [is_null]; [|exact I].
  apply wp_bind, wp_get_parent. intros a v [= <-] Hv.
  rewrite Hn in Hv. injection Hv as <-.
  apply wp_bind, wp_get_parent. intros a grandparent [= <-] Hp.
  apply wp_keeps; [auto with kp|]. intros sibling t1 K1. carry K1. clear K1 t.
  apply wp_keeps; [auto with kp|]. intros aunt t2 K2. carry K2. clear K2 t1.
  apply wp_keeps; [auto 10 with kp|]. intros c1 t3 K3. carry K3. clear K3 t2.
  destruct c1; [apply no_throw_set_color|].
  apply wp_keeps; [auto 10 with kp|]. intros c2 t4 K4. carry K4. clear K4 t3.
  destruct c2; [apply no_throw_set_color|].
  apply wp_keeps; [auto 10 with kp|]. intros c3 t5 K5. carry K5. clear K5 t4.
  destruct c3.
  - apply wp_keeps; [auto with kp|]. intros pl t6 K6. carry K6. clear K6 t5.
    apply wp_bind, wp_get. intros g gnd -> _.
    destruct (negb _).
    + (* zig-zag *)
      eapply wp_seq; [exact (rotateWithParent_keeps_a_parent n p g t6 Hn Hp)|].
      intros _ t7 [y Hy]. cbn beta.
      eapply wp_seq; [exact (rotateWithParent_no_throw n y t7 Hy)|].
      intros _ t8 _. apply no_throw_set_color.
    + (* zig-zig *)
      eapply wp_seq; [exact (rotateWithParent_no_throw p g t6 Hp)|].
      intros _ t7 _. by_no_throw. auto with nothrow.
  - (* 4-node *)
    by_no_throw. auto 10 with nothrow.
Qed.

Lemma fixupFrom_no_throw node : no_throw (fixupFrom node).
Proof. intros t. unfold fixupFrom. apply fixupFrom_loop_no_throw. Qed.

Lemma insertKey_loop_no_throw fuel k :
  forall prev curr, no_throw (insertKey_loop fuel k prev curr).
Proof.
  induction fuel as [|fuel IH]; intros prev [c|]; cbn [insertKey_loop];
    auto 20 with nothrow.
Qed.

Lemma insertKey_body_no_throw fuel k : no_throw (insertKey_body fuel k).
Proof.
  unfold insertKey_body.
  apply no_throw_bind; [auto with nothrow|]. intros r.
  apply no_throw_bind; [apply insertKey_loop_no_throw|].
  intros [prev|]; auto 20 with nothrow.
Qed.

Lemma insertKey_no_throw k : no_throw (insertKey k).
Proof. intros t. exact (insertKey_body_no_throw (budget (heap t)) k t). Qed.

Lemma insert_no_throw k : no_throw (insert k).
Proof.
  unfold insert. apply no_throw_bind; [apply insertKey_no_throw|].
  intros node. apply no_throw_if; [auto with nothrow|].
  apply no_throw_bind; [apply fixupFrom_no_throw|auto with nothrow].
Qed.

(** C8.  [rotateWithParent] on a node without a parent throws, and the
    tree at the throw is the tree it was called on: the test comes before
    any write.  No [insert], on any state, leaves by that exception, and no
    run of [fixupFrom] does. *)
Theorem rotateWithParent_root_throws_unreachable :
  (forall t a nd,
      heap t !! a = Some nd -> parent nd = None ->
      rotateWithParent (Some a) t = Throw t)
  /\ (forall k t t', insert k t <> Throw t')
  /\ (forall node t t', fixupFrom node t <> Throw t').
Proof.
  split; [|split].
  - intros t a nd E Hp. unfold rotateWithParent, mbind, M_bind, get, deref.
    rewrite E, Hp. reflexivity.
  - intros k t t' H. pose proof (insert_no_throw k t) as NT.
    unfold wp in NT. rewrite H in NT. exact NT.
  - intros node t t' H. pose proof (fixupFrom_no_throw node t) as NT.
    unfold wp in NT. rewrite H in NT. exact NT.
Qed.

Lemma rotateWithParent_root_throws_unreachable_witness :
  rotateWithParent (Some 0%nat) t_7 = Throw t_7.
Proof.
  apply (proj1 rotateWithParent_root_throws_unreachable t_7 0%nat
           (mkNode 10 BLACK (Some 1%nat) (Some 2%nat) None 7)); reflexivity.
Defined.

(** ** [rankOf] of a key that is not in the tree *)

Lemma shape_of_is_shape fuel h : forall p s, shape_of fuel h p = Some s -> is_shape h p s.
Proof.
  induction fuel as [|fuel IH]; intros [a|] s; cbn [shape_of]; intros H;
    try discriminate; try (injection H as <-; constructor).
  destruct (h !! a) as [nd|] eqn:E; [|discriminate]. cbn in H.
  destruct (shape_of fuel h (left nd)) as [l|] eqn:El; [|discriminate]. cbn in H.
  destruct (shape_of fuel h (right nd)) as [r|] eqn:Er; [|discriminate]. cbn in H.
  injection H as <-. constructor; auto.
Qed.

Lemma is_shape_addrs_allocated h p s :
  is_shape h p s -> forall a, a ∈ addrs s -> (a < length h)%nat.
Proof.
  induction 1 as [|a nd l r E _ IHl _ IHr]; cbn [addrs]; intros b Hb.
  - inversion Hb.
  - apply elem_of_app in Hb as [Hb|Hb]; [auto|].
    apply elem_of_cons in Hb as [->|Hb]; [|auto].
    eapply lookup_lt_Some, E.
Qed.

Lemma height_le_addrs s : (height s <= length (addrs s))%nat.
Proof.
  induction s as [|l IHl a nd r IHr]; cbn [height addrs]; [lia|].
  rewrite length_app. cbn [length]. lia.
Qed.

(** A tree is no higher than the arena is long, so the budget of the
    loops covers every descent in it. *)
Lemma is_tree_height t s : is_tree t s -> (height s < budget (heap t))%nat.
Proof.
  intros [Hs Hnd]. unfold budget.
  pose proof (height_le_addrs s) as Hh.
  assert (length (addrs s) <= length (seq 0 (length (heap t))))%nat as Hl.
  { apply submseteq_length, NoDup_submseteq; [exact Hnd|].
    intros a Ha. apply elem_of_seq.
    pose proof (is_shape_addrs_allocated _ _ _ Hs a Ha). lia. }
  rewrite length_seq in Hl. lia.
Qed.

Lemma field_allocated {A} h (f : Node -> A) a nd :
  h !! a = Some nd -> field h f (Some a) = Ok (f nd).
Proof. intros E. unfold field, deref. rewrite E. reflexivity. Qed.

(** On a tree the loop of [rankOf] comes back with the count of the
    descent, whether it ends at the key or runs off the tree. *)
Lemma rankOf_loop_running_count h k :
  forall s p fuel rank,
    is_shape h p s -> (height s <= fuel)%nat ->
    rankOf_loop fuel h k p rank = Ok (running_count s k rank).
Proof.
  induction s as [|l IHl a nd r IHr]; intros p fuel rank Hs Hf;
    inversion Hs as [|a' nd' l' r' E Hl Hr]; subst.
  - destruct fuel; reflexivity.
  - cbn [height] in Hf. destruct fuel as [|fuel]; [lia|].
    cbn [rankOf_loop running_count].
    rewrite (field_allocated h key a nd E). cbn [mbind outcome_bind].
    destruct (key nd =? k) eqn:Ek; [reflexivity|].
    destruct (k >? key nd) eqn:Egt.
    + rewrite (field_allocated h left a nd E), (field_allocated h right a nd E).
      cbn [mbind outcome_bind].
      inversion Hl as [El|la lnd ll lr E' Hll Hlr El]; subst; cbn [is_null negb].
      * cbn [mbind outcome_bind mret outcome_ret]. apply IHr; [exact Hr|lia].
      * rewrite (field_allocated h size la lnd E').
        cbn [mbind outcome_bind mret outcome_ret]. apply IHr; [exact Hr|lia].
    + destruct (k <? key nd) eqn:Elt; [|lia].
      rewrite (field_allocated h left a nd E). cbn [mbind outcome_bind].
      apply IHl; [exact Hl|lia].
Qed.

Lemma key_of_root_differs l a nd r k :
  k ∉ keys (Bin l a nd r) -> (key nd =? k) = false.
Proof.
  cbn [keys]. intros H. apply Z.eqb_neq. intros <-. apply H.
  apply elem_of_app. right. apply elem_of_cons. left. reflexivity.
Qed.

(** C10.  On a non-empty tree, [rankOf] of a key that is not in it
    returns normally: no pointer is read through without a test, and the
    result is the count the descent had accumulated when it ran off the
    tree, as a [size_t].  Nothing in the result tells that the key is
    absent: in the seven-key tree the absent key 8 and the present key 10
    both give 3, and 30, above every key, gives 7. *)
Theorem rankOf_absent_key_returns_partial_count :
  (forall t s k,
      is_tree t s -> root t <> None -> k ∉ keys s ->
      rankOf t k = Ok (size_t_of_int (running_count s k 0)))
  /\ (contains t_7 8 = Ok false /\ contains t_7 10 = Ok true
      /\ rankOf t_7 8 = Ok 3 /\ rankOf t_7 10 = Ok 3)
  /\ (contains t_7 30 = Ok false /\ rankOf t_7 30 = Ok 7).
Proof.
  split; [|repeat split; reflexivity].
  intros t s k Ht Hroot Hk.
  pose proof (is_tree_height t s Ht) as Hh. destruct Ht as [Hs _].
  unfold rankOf. cbn zeta.
  inversion Hs as [E|a nd l r E Hl Hr Ep]; subst; [congruence|].
  rewrite <- Ep in Hs. rewrite (field_allocated _ key a nd E).
  cbn [mbind outcome_bind].
  rewrite (key_of_root_differs l a nd r k Hk).
  cbn [mbind outcome_bind mret outcome_ret].
  rewrite (rankOf_loop_running_count (heap t) k _ _ _ 0 Hs); [reflexivity|lia].
Qed.

Lemma rankOf_absent_key_returns_partial_count_witness :
  rankOf t_2_1 5 = Ok 2.
Proof.
  apply (proj1 rankOf_absent_key_returns_partial_count t_2_1 s_2_1 5).
  - split.
    + repeat econstructor.
    + apply (bool_decide_unpack _). vm_compute. reflexivity.
  - discriminate.
  - apply (bool_decide_unpack _). vm_compute. reflexivity.
Defined.

(** ** Lookup in a search tree *)

Lemma bst_ordered_node l a nd r :
  bst_ordered (Bin l a nd r) = true ->
  (forall x, x ∈ keys l -> x < key nd)
  /\ (forall x, x ∈ keys r -> key nd < x)
  /\ bst_ordered l = true /\ bst_ordered r = true.
Proof.
  cbn [bst_ordered]. rewrite !andb_true_iff, !forallb_forall.
  intros [[[Hl Hr] Hbl] Hbr]. repeat split; auto.
  - intros x Hx. apply Z.ltb_lt, Hl, list_elem_of_In, Hx.
  - intros x Hx. apply Z.ltb_lt, Hr, list_elem_of_In, Hx.
Qed.

Lemma elem_of_keys_node k l a nd r :
  k ∈ keys (Bin l a nd r) <-> k ∈ keys l \/ k = key nd \/ k ∈ keys r.
Proof. cbn [keys]. rewrite elem_of_app, elem_of_cons. tauto. Qed.

Lemma contains_loop_search_tree h k :
  forall s p fuel,
    is_shape h p s -> bst_ordered s = true -> (height s <= fuel)%nat ->
    contains_loop fuel h k p = Ok (bool_decide (k ∈ keys s)).
Proof.
  induction s as [|l IHl a nd r IHr]; intros p fuel Hs Hb Hf;
    inversion Hs as [|a' nd' l' r' E Hl Hr]; subst.
  - destruct fuel; reflexivity.
  - cbn [height] in Hf. destruct fuel as [|fuel]; [lia|].
    apply bst_ordered_node in Hb as (Hlt & Hgt & Hbl & Hbr).
    cbn [contains_loop]. rewrite (field_allocated h key a nd E).
    cbn [mbind outcome_bind].
    destruct (k =? key nd) eqn:Ek.
    { apply Z.eqb_eq in Ek. f_equal. symmetry. apply bool_decide_eq_true.
      apply elem_of_keys_node. auto. }
    apply Z.eqb_neq in Ek.
    destruct (k <? key nd) eqn:Elt.
    + apply Z.ltb_lt in Elt. rewrite (field_allocated h left a nd E).
      cbn [mbind outcome_bind]. rewrite (IHl _ fuel Hl Hbl) by lia.
      f_equal. apply bool_decide_ext. rewrite elem_of_keys_node.
      split; [auto|]. intros [H|[H|H]]; [exact H|lia|]. apply Hgt in H. lia.
    + apply Z.ltb_ge in Elt. rewrite (field_allocated h right a nd E).
      cbn [mbind outcome_bind]. rewrite (IHr _ fuel Hr Hbr) by lia.
      f_equal. apply bool_decide_ext. rewrite elem_of_keys_node.
      split; [auto|]. intros [H|[H|H]]; [|lia|exact H]. apply Hlt in H. lia.
Qed.

(** [contains] on a search tree. *)
Lemma contains_on_tree t s k :
  is_tree t s -> bst_ordered s = true ->
  contains t k = Ok (bool_decide (k ∈ keys s)).
Proof.
  intros Ht Hb. pose proof (is_tree_height t s Ht) as Hh.
  destruct Ht as [Hs _]. unfold contains.
  apply contains_loop_search_tree; [exact Hs|exact Hb|lia].
Qed.

(** X1.  On a state that holds a tree in search-tree order, [contains]
    returns, and returns [true] exactly for the keys of the tree; colours,
    sizes and parent pointers play no part. *)
Theorem contains_search_tree t s k :
  is_tree t s -> bst_ordered s = true ->
  contains t k = Ok (bool_decide (k ∈ keys s)).
Proof. exact (contains_on_tree t s k). Qed.

Lemma contains_search_tree_witness :
  contains t_2_1 1 = Ok (bool_decide (1 ∈ keys s_2_1)).
Proof.
  apply (contains_search_tree t_2_1 s_2_1 1).
  - split.
    + repeat econstructor.
    + apply (bool_decide_unpack _). vm_compute. reflexivity.
  - reflexivity.
Defined.

(** ** Running a computation step by step *)

Lemma bind_Ok {A B} (m : M A) (f : A -> M B) t a t1 :
  m t = Ok (a, t1) -> (m ≫= f) t = f a t1.
Proof. intros H. unfold mbind, M_bind. rewrite H. reflexivity. Qed.

Lemma bind_NullDeref {A B} (m : M A) (f : A -> M B) t :
  m t = NullDeref -> (m ≫= f) t = NullDeref.
Proof. intros H. unfold mbind, M_bind. rewrite H. reflexivity. Qed.

Lemma bind_Diverge {A B} (m : M A) (f : A -> M B) t :
  m t = Diverge -> (m ≫= f) t = Diverge.
Proof. intros H. unfold mbind, M_bind. rewrite H. reflexivity. Qed.

Lemma get_Ok {A} (f : Node -> A) a nd t :
  heap t !! a = Some nd -> get f (Some a) t = Ok (f nd, t).
Proof. intros E. unfold get, deref. rewrite E. reflexivity. Qed.

Lemma get_unallocated {A} (f : Node -> A) a t :
  heap t !! a = None -> get f (Some a) t = NullDeref.
Proof. intros E. unfold get, deref. rewrite E. reflexivity. Qed.

Lemma store_Ok upd a nd t :
  heap t !! a = Some nd ->
  store upd (Some a) t = Ok (tt, mkTree (<[a := upd nd]> (heap t)) (root t)).
Proof. intros E. unfold store. rewrite E. reflexivity. Qed.

Lemma field_unallocated {A} h (f : Node -> A) a :
  h !! a = None -> field h f (Some a) = NullDeref.
Proof. intros E. unfold field, deref. rewrite E. reflexivity. Qed.

(** ** A key that is already there *)

Lemma same_but_size_refl nd : same_but_size nd nd.
Proof. repeat split. Qed.

Lemma same_but_size_trans a b c :
  same_but_size a b -> same_but_size b c -> same_but_size a c.
Proof. unfold same_but_size. intuition congruence. Qed.

Lemma sizes_only_refl t : sizes_only t t.
Proof.
  split; [reflexivity|]. apply Forall_Forall2_diag, Forall_forall.
  intros; apply same_but_size_refl.
Qed.

Lemma sizes_only_trans t1 t2 t3 :
  sizes_only t1 t2 -> sizes_only t2 t3 -> sizes_only t1 t3.
Proof.
  intros [R1 F1] [R2 F2]. split; [congruence|].
  apply Forall2_same_length_lookup. split.
  - rewrite (Forall2_length _ _ _ F1). apply (Forall2_length _ _ _ F2).
  - intros i x z Hx Hz.
    destruct (Forall2_lookup_l _ _ _ _ _ F1 Hx) as (y & Hy & Hxy).
    eapply same_but_size_trans; [exact Hxy|].
    eapply Forall2_lookup_lr; eauto.
Qed.

Lemma sizes_only_set_size t a nd v :
  heap t !! a = Some nd ->
  sizes_only t (mkTree (<[a := with_size v nd]> (heap t)) (root t)).
Proof.
  intros E. split; [reflexivity|]. cbn [heap].
  apply Forall2_same_length_lookup. split; [symmetry; apply length_insert|].
  intros i x y Hx Hy. destruct (decide (a = i)) as [->|D].
  - rewrite list_lookup_insert_eq in Hy by (eapply lookup_lt_Some, E).
    injection Hy as <-. rewrite E in Hx. injection Hx as <-. repeat split.
  - rewrite list_lookup_insert_ne in Hy by exact D.
    rewrite Hx in Hy. injection Hy as <-. apply same_but_size_refl.
Qed.

Lemma sizes_only_lookup h h' a :
  Forall2 same_but_size h h' ->
  match h !! a with
  | Some nd => exists nd', h' !! a = Some nd' /\ same_but_size nd nd'
  | None => h' !! a = None
  end.
Proof.
  intros F. destruct (h !! a) as [nd|] eqn:E.
  - apply (Forall2_lookup_l _ _ _ _ _ F E).
  - apply lookup_ge_None. rewrite <- (Forall2_length _ _ _ F).
    apply lookup_ge_None, E.
Qed.

(** The descent of [contains] reads keys and child links only. *)
Lemma contains_loop_sizes_only h h' k :
  Forall2 same_but_size h h' ->
  forall fuel p, contains_loop fuel h k p = contains_loop fuel h' k p.
Proof.
  intros F. induction fuel as [|fuel IH]; intros [a|]; try reflexivity.
  cbn [contains_loop]. pose proof (sizes_only_lookup h h' a F) as L.
  destruct (h !! a) as [nd|] eqn:E.
  - destruct L as (nd' & E' & Hk & _ & Hl & Hr & _).
    rewrite !(field_allocated h _ a nd E), !(field_allocated h' _ a nd' E').
    cbn [mbind outcome_bind]. rewrite Hk, Hl, Hr.
    destruct (k =? key nd); [reflexivity|]. destruct (k <? key nd); apply IH.
  - rewrite (field_unallocated h key a E), (field_unallocated h' key a L).
    reflexivity.
Qed.

(** The descent of [insertKey] takes the turns the descent of [contains]
    takes, and meanwhile writes [size] counters only. *)
Lemma insertKey_loop_follows_contains k :
  forall fuel prev p t,
    match contains_loop fuel (heap t) k p with
    | Ok true =>
        exists t', insertKey_loop fuel k prev p t = Ok (None, t') /\ sizes_only t t'
    | Ok false =>
        exists q t', insertKey_loop fuel k prev p t = Ok (Some q, t') /\ sizes_only t t'
    | NullDeref => insertKey_loop fuel k prev p t = NullDeref
    | Diverge => insertKey_loop fuel k prev p t = Diverge
    | Throw _ => False
    end.
Proof.
  induction fuel as [|fuel IH]; intros prev [a|] t; cbn [contains_loop insertKey_loop];
    try reflexivity;
    try (exists prev, t; split; [reflexivity|apply sizes_only_refl]).
  destruct (heap t !! a) as [nd|] eqn:E.
  2:{ rewrite (field_unallocated _ key a E). cbn [mbind outcome_bind].
      apply bind_NullDeref, get_unallocated, E. }
  rewrite (field_allocated _ key a nd E). cbn [mbind outcome_bind].
  rewrite (bind_Ok _ _ _ _ _ (get_Ok size a nd t E)). cbn beta. unfold set_size.
  rewrite (bind_Ok _ _ _ _ _ (store_Ok _ a nd t E)). cbn beta.
  set (t1 := mkTree _ _).
  pose proof (sizes_only_set_size t a nd (int_add (size nd) 1) E) as S1. fold t1 in S1.
  assert (heap t1 !! a = Some (with_size (int_add (size nd) 1) nd)) as E1.
  { apply list_lookup_insert_eq. eapply lookup_lt_Some, E. }
  rewrite (bind_Ok _ _ _ _ _ (get_Ok key a _ t1 E1)). cbn beta. cbn [with_size key].
  destruct (k =? key nd).
  { exists t1. split; [reflexivity|exact S1]. }
  destruct (k <? key nd).
  - rewrite (field_allocated _ left a nd E). cbn [mbind outcome_bind].
    rewrite (bind_Ok _ _ _ _ _ (get_Ok left a _ t1 E1)). cbn beta. cbn [with_size left].
    specialize (IH (Some a) (left nd) t1).
    rewrite <- (contains_loop_sizes_only _ _ k (proj2 S1)) in IH.
    destruct (contains_loop fuel (heap t) k (left nd)) as [[|]| | |]; try exact IH.
    + destruct IH as (t' & H & S2). exists t'. split; [exact H|].
      eapply sizes_only_trans; eauto.
    + destruct IH as (q & t' & H & S2). exists q, t'. split; [exact H|].
      eapply sizes_only_trans; eauto.
  - rewrite (field_allocated _ right a nd E). cbn [mbind outcome_bind].
    rewrite (bind_Ok _ _ _ _ _ (get_Ok right a _ t1 E1)). cbn beta. cbn [with_size right].
    specialize (IH (Some a) (right nd) t1).
    rewrite <- (contains_loop_sizes_only _ _ k (proj2 S1)) in IH.
    destruct (contains_loop fuel (heap t) k (right nd)) as [[|]| | |]; try exact IH.
    + destruct IH as (t' & H & S2). exists t'. split; [exact H|].
      eapply sizes_only_trans; eauto.
    + destruct IH as (q & t' & H & S2). exists q, t'. split; [exact H|].
      eapply sizes_only_trans; eauto.
Qed.

(** What [insertKey] returns, by what [contains] says of the key. *)
Lemma insertKey_by_contains t k :
  match contains t k with
  | Ok true => exists t', insertKey k t = Ok (None, t') /\ sizes_only t t'
  | Ok false =>
      forall r, insertKey k t = Ok r -> fst r = Some (length (heap t))
  | _ => forall r, insertKey k t <> Ok r
  end.
Proof.
  unfold contains, insertKey, insertKey_body.
  pose proof (insertKey_loop_follows_contains k (budget (heap t)) None (root t) t) as L.
  rewrite (bind_Ok _ _ t (root t) t eq_refl). cbn beta.
  destruct (contains_loop _ _ _ _) as [[|]| | |].
  - destruct L as (t' & H & S1). exists t'. rewrite (bind_Ok _ _ _ _ _ H).
    split; [reflexivity|exact S1].
  - destruct L as (q & t' & H & [_ S1]). rewrite (bind_Ok _ _ _ _ _ H). cbn beta iota.
    rewrite (bind_Ok _ _ t' (Some (length (heap t')))
               (mkTree (heap t' ++ [mkNode k BLACK None None q 1]) (root t')) eq_refl).
    cbn beta. unfold mbind at 1, M_bind at 1.
    rewrite <- (Forall2_length _ _ _ S1).
    match goal with |- context [match ?x with _ => _ end] => destruct x as [[[] t2]| | |] end;
      intros r Hr; try discriminate.
    injection Hr as <-. reflexivity.
  - destruct L.
  - intros r. rewrite (bind_NullDeref _ _ _ L). discriminate.
  - intros r. rewrite (bind_Diverge _ _ _ L). discriminate.
Qed.

Lemma insert_by_contains t k :
  match contains t k with
  | Ok true => exists t', insert k t = Ok (false, t') /\ sizes_only t t'
  | Ok false => forall r, insert k t = Ok r -> fst r = true
  | _ => forall r, insert k t <> Ok r
  end.
Proof.
  pose proof (insertKey_by_contains t k) as L. unfold insert.
  destruct (contains t k) as [[|]| | |].
  - destruct L as (t' & H & S1). exists t'. rewrite (bind_Ok _ _ _ _ _ H).
    split; [reflexivity|exact S1].
  - intros r. unfold mbind at 1, M_bind at 1.
    destruct (insertKey k t) as [[node t1]| | |] eqn:E; try discriminate.
    specialize (L _ eq_refl). cbn [fst] in L. subst node. cbn [is_null].
    unfold mbind, M_bind. destruct (fixupFrom _ t1) as [[[] t2]| | |]; try discriminate.
    intros [= <-]. reflexivity.
  - intros r. unfold mbind, M_bind.
    destruct (insertKey k t) as [[node t1]| | |] eqn:E; try discriminate.
    exfalso. exact (L _ eq_refl).
  - intros r. unfold mbind, M_bind.
    destruct (insertKey k t) as [[node t1]| | |] eqn:E; try discriminate.
    exfalso. exact (L _ eq_refl).
  - intros r. unfold mbind, M_bind.
    destruct (insertKey k t) as [[node t1]| | |] eqn:E; try discriminate.
    exfalso. exact (L _ eq_refl).
Qed.

(** X2.  On every state, the result of [insert] and the answer of
    [contains] before it go together: when [contains] finds the key,
    [insert] returns [false]; and whenever [insert] returns [b], [contains]
    had answered the opposite of [b]. *)
Theorem insert_result_against_contains :
  (forall t k, contains t k = Ok true -> exists t', insert k t = Ok (false, t'))
  /\ (forall t k b t', insert k t = Ok (b, t') -> contains t k = Ok (negb b)).
Proof.
  split.
  - intros t k H. pose proof (insert_by_contains t k) as L.
    rewrite H in L. destruct L as (t' & H' & _). eauto.
  - intros t k b t' H. pose proof (insert_by_contains t k) as L.
    destruct (contains t k) as [[|]| | |].
    + destruct L as (t1 & H1 & _). rewrite H1 in H. injection H as <- <-. reflexivity.
    + specialize (L _ H). cbn [fst] in L. subst b. reflexivity.
    + destruct (L _ H).
    + destruct (L _ H).
    + destruct (L _ H).
Qed.

Lemma insert_result_against_contains_witness :
  exists t', insert 3 t_4 = Ok (false, t').
Proof.
  apply (proj1 insert_result_against_contains t_4 3). reflexivity.
Defined.

(** X3.  An [insert] that returns [false] has written nothing but [size]
    counters: the root pointer, the number of nodes, and every key, colour,
    child link and parent link are as before, and [contains] answers every
    query as it did. *)
Theorem insert_false_writes_sizes_only t k t' :
  insert k t = Ok (false, t') ->
  sizes_only t t' /\ forall k', contains t' k' = contains t k'.
Proof.
  intros H. pose proof (insert_by_contains t k) as L.
  assert (sizes_only t t') as S1.
  { destruct (contains t k) as [[|]| | |].
    - destruct L as (t1 & H1 & S1). congruence.
    - specialize (L _ H). discriminate.
    - destruct (L _ H).
    - destruct (L _ H).
    - destruct (L _ H). }
  split; [exact S1|]. intros k'. destruct S1 as [R F]. unfold contains, budget.
  rewrite R, <- (Forall2_length _ _ _ F). symmetry.
  apply contains_loop_sizes_only, F.
Qed.

Lemma insert_false_writes_sizes_only_witness :
  sizes_only t_4 t_4_again_3 /\ forall k', contains t_4_again_3 k' = contains t_4 k'.
Proof.
  apply (insert_false_writes_sizes_only t_4 3 t_4_again_3). reflexivity.
Defined.

(** ** Nodes and keys across a call *)

Create HintDb kk.

Lemma post_mono {A} (m : M A) (Q Q' : A -> RedBlackTree -> Prop) t :
  (forall a t', Q a t' -> Q' a t') -> post m Q t -> post m Q' t.
Proof. unfold post. intros HQ. destruct (m t) as [[a t']| | |]; auto. Qed.

Lemma post_seq {A B} (m : M A) (f : A -> M B) (R : A -> RedBlackTree -> Prop) Q t :
  post m R t -> (forall a t', R a t' -> post (f a) Q t') -> post (m ≫= f) Q t.
Proof.
  unfold post, mbind, M_bind. intros Hm Hf.
  destruct (m t) as [[a t']| | |]; auto. apply Hf, Hm.
Qed.

Lemma post_Ok {A} (m : M A) Q t a t' : post m Q t -> m t = Ok (a, t') -> Q a t'.
Proof. unfold post. intros H E. rewrite E in H. exact H. Qed.

Lemma keeps_keys_ret {A} (a : A) : keeps_keys (mret a).
Proof. intros t. reflexivity. Qed.

Lemma keeps_keys_bind {A B} (m : M A) (f : A -> M B) :
  keeps_keys m -> (forall a, keeps_keys (f a)) -> keeps_keys (m ≫= f).
Proof.
  intros Hm Hf t. eapply post_seq; [apply Hm|].
  intros a t' K. cbn beta in K. eapply post_mono; [|apply Hf].
  intros b t'' K'. cbn beta in K'. congruence.
Qed.

Lemma keeps_keys_if {A} (c : bool) (m1 m2 : M A) :
  keeps_keys m1 -> keeps_keys m2 -> keeps_keys (if c then m1 else m2).
Proof. destruct c; auto. Qed.

Lemma keeps_keys_get {A} (f : Node -> A) p : keeps_keys (get f p).
Proof.
  intros t. unfold post, get. destruct (deref (heap t) p); auto.
Qed.

Lemma keeps_keys_store upd p :
  (forall nd, key (upd nd) = key nd) -> keeps_keys (store upd p).
Proof.
  intros Hu t. unfold post, store. destruct p as [a|]; [|exact I].
  destruct (heap t !! a) as [nd|] eqn:E; [|exact I].
  unfold stored_keys. cbn [heap]. rewrite list_fmap_insert, Hu.
  apply list_insert_id. rewrite list_lookup_fmap, E. reflexivity.
Qed.

Lemma keeps_keys_set_color p v : keeps_keys (set_color p v).
Proof. apply keeps_keys_store. reflexivity. Qed.

Lemma keeps_keys_set_left p v : keeps_keys (set_left p v).
Proof. apply keeps_keys_store. reflexivity. Qed.

Lemma keeps_keys_set_right p v : keeps_keys (set_right p v).
Proof. apply keeps_keys_store. reflexivity. Qed.

Lemma keeps_keys_set_parent p v : keeps_keys (set_parent p v).
Proof. apply keeps_keys_store. reflexivity. Qed.

Lemma keeps_keys_set_size p v : keeps_keys (set_size p v).
Proof. apply keeps_keys_store. reflexivity. Qed.

Lemma keeps_keys_set_root p : keeps_keys (set_root p).
Proof. intros t. reflexivity. Qed.

Lemma keeps_keys_get_root : keeps_keys get_root.
Proof. intros t. reflexivity. Qed.

Lemma keeps_keys_diverge {A} : keeps_keys (@diverge A).
Proof. intros t. exact I. Qed.

Lemma keeps_keys_throw {A} : keeps_keys (@throw A).
Proof. intros t. exact I. Qed.

#[local] Hint Resolve keeps_keys_ret keeps_keys_bind keeps_keys_if keeps_keys_get
  keeps_keys_set_color keeps_keys_set_left keeps_keys_set_right
  keeps_keys_set_parent keeps_keys_set_size keeps_keys_set_root
  keeps_keys_get_root keeps_keys_diverge keeps_keys_throw : kk.

Lemma keeps_keys_siblingOf node : keeps_keys (siblingOf node).
Proof.
  unfold siblingOf. apply keeps_keys_bind; [auto with kk|].
  intros [p|]; auto 6 with kk.
Qed.

Lemma keeps_keys_color_is p c : keeps_keys (color_is p c).
Proof. unfold color_is. auto with kk. Qed.

Lemma keeps_keys_and_then a b : keeps_keys a -> keeps_keys b -> keeps_keys (a &&& b).
Proof. unfold and_then. auto with kk. Qed.

Lemma keeps_keys_or_else a b : keeps_keys a -> keeps_keys b -> keeps_keys (a ||| b).
Proof. unfold or_else. auto with kk. Qed.

Lemma keeps_keys_rotateWithParent node : keeps_keys (rotateWithParent node).
Proof. unfold rotateWithParent. auto 80 with kk. Qed.

#[local] Hint Resolve keeps_keys_siblingOf keeps_keys_color_is keeps_keys_and_then
  keeps_keys_or_else keeps_keys_rotateWithParent : kk.

Lemma keeps_keys_fixupFrom_loop fuel : forall node, keeps_keys (fixupFrom_loop fuel node).
Proof.
  induction fuel as [|fuel IH]; intros node; cbn [fixupFrom_loop]; auto 40 with kk.
Qed.

Lemma keeps_keys_fixupFrom node : keeps_keys (fixupFrom node).
Proof. intros t. exact (keeps_keys_fixupFrom_loop (budget (heap t)) node t). Qed.

Lemma keeps_keys_insertKey_loop fuel k :
  forall prev curr, keeps_keys (insertKey_loop fuel k prev curr).
Proof.
  induction fuel as [|fuel IH]; intros prev [c|]; cbn [insertKey_loop];
    auto 20 with kk.
Qed.

(** X4.  [rotateWithParent] and [fixupFrom] only relink and recolour: when
    either returns, the arena holds the same nodes with the same keys at
    the same addresses; none is created, none is dropped. *)
Theorem rotation_and_fixup_keep_nodes :
  (forall node t t',
      rotateWithParent node t = Ok (tt, t') -> stored_keys t' = stored_keys t)
  /\ (forall node t t',
         fixupFrom node t = Ok (tt, t') -> stored_keys t' = stored_keys t).
Proof.
  split; intros node t t' H.
  - exact (post_Ok _ _ _ _ _ (keeps_keys_rotateWithParent node t) H).
  - exact (post_Ok _ _ _ _ _ (keeps_keys_fixupFrom node t) H).
Qed.

Lemma rotation_and_fixup_keep_nodes_witness :
  stored_keys t_3_2_1_rotated = stored_keys t_3_2_1_attached.
Proof.
  apply (proj1 rotation_and_fixup_keep_nodes (Some 1%nat)). reflexivity.
Defined.

Lemma insertKey_body_stored_keys fuel k t :
  post (insertKey_body fuel k)
       (fun node t' =>
          stored_keys t' = stored_keys t ++ (if is_null node then [] else [k])) t.
Proof.
  unfold insertKey_body.
  eapply post_seq; [apply keeps_keys_get_root|]. intros r t0 K0. cbn beta in K0.
  eapply post_seq; [apply keeps_keys_insertKey_loop|]. intros found t1 K1.
  cbn beta in K1. destruct found as [prev|].
  - eapply post_seq with
      (R := fun node t' => node <> None /\ stored_keys t' = stored_keys t ++ [k]).
    { unfold post, alloc, stored_keys. cbn [heap]. split; [discriminate|].
      rewrite map_app. cbn [map key]. unfold stored_keys in K0, K1. congruence. }
    intros node t2 [Hn K2].
    eapply post_seq with (R := fun _ t' => stored_keys t' = stored_keys t ++ [k]).
    { eapply post_mono; [|apply (keeps_keys_if (is_null prev)); auto 10 with kk].
      intros u3 t3 K3. cbn beta in K3. congruence. }
    intros u3 t3 K3. destruct node; [|congruence]. exact K3.
  - unfold post. cbn [mret M_ret is_null]. rewrite app_nil_r. congruence.
Qed.

Lemma insertKey_stored_keys k t :
  post (insertKey k)
       (fun node t' =>
          stored_keys t' = stored_keys t ++ (if is_null node then [] else [k])) t.
Proof. exact (insertKey_body_stored_keys (budget (heap t)) k t). Qed.

(** X5.  When [insert k] returns, the arena is the old one with at most
    one node more: it has grown by exactly one node, holding [k], when the
    result is [true], and by none when it is [false]; the keys of the old
    nodes are untouched. *)
Theorem insert_stored_keys k t b t' :
  insert k t = Ok (b, t') ->
  stored_keys t' = stored_keys t ++ (if b then [k] else []).
Proof.
  intros H.
  apply (post_Ok (insert k)
           (fun b t' => stored_keys t' = stored_keys t ++ (if b then [k] else []))
           t b t'); [|exact H].
  unfold insert.
  eapply post_seq; [apply insertKey_stored_keys|].
  intros node t1 K1. cbn beta in K1. destruct node as [n|]; cbn [is_null] in *.
  - eapply post_seq; [apply keeps_keys_fixupFrom|].
    intros u2 t2 K2. cbn beta in K2. unfold post. cbn [mret M_ret]. congruence.
  - unfold post. cbn [mret M_ret]. exact K1.
Qed.

Lemma insert_stored_keys_witness :
  stored_keys t_1 = stored_keys empty ++ [1].
Proof. apply (insert_stored_keys 1 empty true t_1). reflexivity. Defined.

(** ** [rankOf] on a tree with right counters *)

Lemma int_add_exact a b :
  (- 2 ^ 31 <= a + b) /\ a + b < 2 ^ 31 -> int_add a b = a + b.
Proof.
  intros H. unfold int_add, int_wrap.
  rewrite Z.mod_small by lia. lia.
Qed.

Lemma position_cons x l k :
  position (x :: l) k = (if x <? k then 1 else 0) + position l k.
Proof.
  unfold position. destruct (x <? k) eqn:E.
  - rewrite filter_cons_True by (rewrite E; exact I). cbn [length]. lia.
  - rewrite filter_cons_False by (rewrite E; exact id). lia.
Qed.

Lemma position_app l1 l2 k : position (l1 ++ l2) k = position l1 k + position l2 k.
Proof. unfold position. rewrite filter_app, length_app. lia. Qed.

Lemma position_all_below l k :
  (forall x, x ∈ l -> x < k) -> position l k = Z.of_nat (length l).
Proof.
  induction l as [|x l IH]; intros H; [reflexivity|].
  rewrite position_cons, IH by (intros y Hy; apply H; right; exact Hy).
  assert (x < k) as Hx by (apply H; left).
  apply Z.ltb_lt in Hx. rewrite Hx. cbn [length]. lia.
Qed.

Lemma position_none_below l k :
  (forall x, x ∈ l -> k <= x) -> position l k = 0.
Proof.
  induction l as [|x l IH]; intros H; [reflexivity|].
  rewrite position_cons, IH by (intros y Hy; apply H; right; exact Hy).
  assert (k <= x) as Hx by (apply H; left).
  apply Z.ltb_ge in Hx. rewrite Hx. reflexivity.
Qed.

Lemma position_bounds l k : 0 <= position l k <= Z.of_nat (length l).
Proof.
  unfold position. pose proof (length_filter (fun x => x <? k) l). lia.
Qed.

(** With right counters, the [size] at the root of a subtree is its number
    of nodes. *)
Lemma sizes_ok_count s :
  sizes_ok s = true -> root_size s = Z.of_nat (length (keys s)).
Proof.
  induction s as [|l IHl a nd r IHr]; [reflexivity|].
  cbn [sizes_ok root_size keys]. rewrite !andb_true_iff.
  intros [[Hs Hl] Hr]. apply Z.eqb_eq in Hs.
  rewrite Hs, IHl, IHr by assumption. rewrite length_app. cbn [length]. lia.
Qed.

Lemma sizes_ok_node l a nd r :
  sizes_ok (Bin l a nd r) = true ->
  sizes_ok l = true /\ sizes_ok r = true.
Proof. cbn [sizes_ok]. rewrite !andb_true_iff. tauto. Qed.

Lemma running_count_valid k :
  forall s acc,
    bst_ordered s = true -> sizes_ok s = true ->
    0 <= acc -> acc + Z.of_nat (length (keys s)) < 2 ^ 31 ->
    running_count s k acc = acc + position (keys s) k - left_size_at s k
    /\ 0 <= left_size_at s k <= position (keys s) k.
Proof.
  induction s as [|l IHl a nd r IHr]; intros acc Hb Hs Ha Hn.
  { cbn. unfold position. cbn. lia. }
  apply bst_ordered_node in Hb as (Hlt & Hgt & Hbl & Hbr).
  pose proof (sizes_ok_node _ _ _ _ Hs) as [Hsl Hsr].
  pose proof (sizes_ok_count l Hsl) as Cl.
  cbn [keys] in *. rewrite length_app in Hn. cbn [length] in Hn.
  rewrite position_app, position_cons.
  cbn [running_count left_size_at].
  destruct (key nd =? k) eqn:Ek.
  - apply Z.eqb_eq in Ek. subst k. rewrite Z.ltb_irrefl.
    rewrite (position_all_below (keys l)) by exact Hlt.
    rewrite (position_none_below (keys r)) by (intros x Hx; apply Hgt in Hx; lia).
    rewrite Cl. lia.
  - apply Z.eqb_neq in Ek. destruct (k >? key nd) eqn:Egt.
    + assert (key nd < k) as Hk by lia.
      apply Z.ltb_lt in Hk as Hk'. rewrite Hk'.
      rewrite (position_all_below (keys l)) by (intros x Hx; apply Hlt in Hx; lia).
      assert (int_add (match l with
                       | Leaf => acc
                       | Bin _ _ ln _ => int_add acc (size ln)
                       end) 1 = acc + Z.of_nat (length (keys l)) + 1) as ->.
      { destruct l as [|ll la ln lr].
        - cbn [keys length]. rewrite int_add_exact; lia.
        - cbn [root_size] in Cl. rewrite Cl.
          rewrite (int_add_exact acc) by lia. rewrite int_add_exact; lia. }
      destruct (IHr (acc + Z.of_nat (length (keys l)) + 1) Hbr Hsr) as [E B]; [lia|lia|].
      rewrite E. lia.
    + assert (k < key nd) as Hk by lia.
      assert ((key nd <? k) = false) as -> by lia.
      rewrite (position_none_below (keys r)) by (intros x Hx; apply Hgt in Hx; lia).
      destruct (IHl acc Hbl Hsl) as [E B]; [lia|lia|].
      rewrite E. lia.
Qed.

Lemma left_size_at_absent k s : k ∉ keys s -> left_size_at s k = 0.
Proof.
  induction s as [|l IHl a nd r IHr]; intros H; [reflexivity|].
  cbn [left_size_at]. rewrite elem_of_keys_node in H.
  destruct (key nd =? k) eqn:Ek.
  { apply Z.eqb_eq in Ek. exfalso. apply H. auto. }
  destruct (k >? key nd); [apply IHr|apply IHl]; tauto.
Qed.

(** [rankOf] on a search tree with right counters. *)
Lemma rankOf_on_valid_tree t s k :
  is_tree t s -> root t <> None ->
  bst_ordered s = true -> sizes_ok s = true ->
  Z.of_nat (length (keys s)) < 2 ^ 31 ->
  rankOf t k = Ok (position (keys s) k - shortfall s k)
  /\ 0 <= shortfall s k <= position (keys s) k.
Proof.
  intros Ht Hroot Hb Hs Hn.
  pose proof (is_tree_height t s Ht) as Hh. destruct Ht as [Hsh _].
  pose proof (position_bounds (keys s) k) as PB.
  unfold rankOf. cbn zeta.
  inversion Hsh as [E|a nd l r E Hl Hr Ep]; subst; [congruence|].
  rewrite <- Ep in Hsh. rewrite (field_allocated _ key a nd E).
  cbn [mbind outcome_bind shortfall].
  destruct (running_count_valid k (Bin l a nd r) 0 Hb Hs) as [RC B]; [lia|lia|].
  pose proof (sizes_ok_count l (proj1 (sizes_ok_node _ _ _ _ Hs))) as Cl.
  assert (Z.of_nat (length (keys l)) <= Z.of_nat (length (keys (Bin l a nd r)))) as Ll.
  { cbn [keys]. rewrite length_app. lia. }
  unfold size_t_of_int.
  destruct (key nd =? k) eqn:Ek.
  - cbn [running_count left_size_at] in RC, B. rewrite Ek in RC, B.
    rewrite (field_allocated _ left a nd E). cbn [mbind outcome_bind].
    inversion Hl as [El|la lnd ll lr E' Hll Hlr El]; subst; cbn [is_null negb].
    + cbn [mbind outcome_bind mret outcome_ret].
      rewrite (rankOf_loop_running_count (heap t) k _ _ _ _ Hsh) by lia.
      cbn [running_count]. rewrite Ek. cbn [mbind outcome_bind mret outcome_ret].
      cbn [root_size] in *. split; [|lia]. f_equal. rewrite Z.mod_small; lia.
    + rewrite (field_allocated _ size la lnd E').
      cbn [mbind outcome_bind mret outcome_ret].
      rewrite (rankOf_loop_running_count (heap t) k _ _ _ _ Hsh) by lia.
      cbn [running_count]. rewrite Ek. cbn [mbind outcome_bind mret outcome_ret].
      cbn [root_size] in *. split; [|lia]. f_equal.
      rewrite int_add_exact by lia. rewrite Z.mod_small; lia.
  - cbn [mbind outcome_bind mret outcome_ret].
    rewrite (rankOf_loop_running_count (heap t) k _ _ _ _ Hsh) by lia.
    cbn [mbind outcome_bind mret outcome_ret]. rewrite RC.
    split; [|lia]. f_equal. rewrite Z.mod_small; lia.
Qed.

(** X6.  On a non-empty search tree whose [size] counters are right and
    that has fewer than 2^31 nodes, [rankOf k] returns the number of keys
    below [k] minus a shortfall: nothing for the key at the root and for a
    key that is not in the tree, and otherwise the size of the left
    subtree of the node that holds [k]. *)
Theorem rankOf_valid_tree t s k :
  is_tree t s -> root t <> None ->
  bst_ordered s = true -> sizes_ok s = true ->
  Z.of_nat (length (keys s)) < 2 ^ 31 ->
  rankOf t k = Ok (position (keys s) k - shortfall s k)
  /\ 0 <= shortfall s k <= position (keys s) k.
Proof. exact (rankOf_on_valid_tree t s k). Qed.

Lemma rankOf_valid_tree_witness :
  rankOf t_2_1 1 = Ok (position (keys s_2_1) 1 - shortfall s_2_1 1)
  /\ 0 <= shortfall s_2_1 1 <= position (keys s_2_1) 1.
Proof.
  apply (rankOf_valid_tree t_2_1 s_2_1 1).
  - split.
    + repeat econstructor.
    + apply (bool_decide_unpack _). vm_compute. reflexivity.
  - discriminate.
  - reflexivity.
  - reflexivity.
  - reflexivity.
Defined.

(** X7.  Under the same conditions, [rankOf] of a key that is not in the
    tree is the number of keys below it, the position at which the key
    would go. *)
Theorem rankOf_absent_counts_smaller t s k :
  is_tree t s -> root t <> None ->
  bst_ordered s = true -> sizes_ok s = true ->
  Z.of_nat (length (keys s)) < 2 ^ 31 ->
  k ∉ keys s ->
  rankOf t k = Ok (position (keys s) k).
Proof.
  intros Ht Hroot Hb Hs Hn Hk.
  destruct (rankOf_on_valid_tree t s k Ht Hroot Hb Hs Hn) as [E _].
  rewrite E. f_equal.
  assert (shortfall s k = 0) as ->; [|lia].
  destruct s as [|l a nd r]; [reflexivity|]. cbn [shortfall].
  rewrite (left_size_at_absent k _ Hk). destruct (key nd =? k); reflexivity.
Qed.

Lemma rankOf_absent_counts_smaller_witness :
  rankOf t_2_1 5 = Ok (position (keys s_2_1) 5).
Proof.
  apply (rankOf_absent_counts_smaller t_2_1 s_2_1 5).
  - split.
    + repeat econstructor.
    + apply (bool_decide_unpack _). vm_compute. reflexivity.
  - discriminate.
  - reflexivity.
  - reflexivity.
  - reflexivity.
  - apply (bool_decide_unpack _). vm_compute. reflexivity.
Defined.

(** ** What [select] can return *)

Lemma is_shape_lookup h p s :
  is_shape h p s ->
  forall a, a ∈ addrs s -> exists nd, h !! a = Some nd /\ key nd ∈ keys s.
Proof.
  induction 1 as [|a nd l r E _ IHl _ IHr]; intros b Hb; cbn [addrs keys] in *.
  - inversion Hb.
  - apply elem_of_app in Hb as [Hb|Hb].
    + destruct (IHl b Hb) as (x & Hx & Hk). exists x. split; [exact Hx|].
      apply elem_of_app. auto.
    + apply elem_of_cons in Hb as [->|Hb].
      * exists nd. split; [exact E|]. apply elem_of_app. right. left.
      * destruct (IHr b Hb) as (x & Hx & Hk). exists x. split; [exact Hx|].
        apply elem_of_app. right. right. exact Hk.
Qed.

Lemma outcome_bind_Ok {A B} (m : outcome A) (f : A -> outcome B) b :
  m ≫= f = Ok b -> exists a, m = Ok a /\ f a = Ok b.
Proof. destruct m as [a| | |]; cbn; intros H; try discriminate. eauto. Qed.

(** The loop of [select] ends on a node of the tree it started in. *)
Lemma select_loop_in_tree h rank :
  forall fuel s p cr q,
    is_shape h p s -> p <> None ->
    select_loop fuel h rank p cr = Ok q ->
    exists a, q = Some a /\ a ∈ addrs s.
Proof.
  induction fuel as [|fuel IH]; intros s p cr q Hs Hp H;
    destruct p as [a|]; try congruence; cbn [select_loop] in H; [discriminate|].
  inversion Hs as [|a' nd l r E Hl Hr]; subst. cbn [addrs].
  destruct (int_of_size_t rank >? cr).
  - rewrite (field_allocated h right a nd E) in H. cbn [mbind outcome_bind] in H.
    apply outcome_bind_Ok in H as (l0 & H0 & H).
    apply outcome_bind_Ok in H as (cr' & _ & H).
    destruct (right nd) as [b|] eqn:Er; [|discriminate].
    destruct (IH r (Some b) cr' q Hr ltac:(discriminate) H) as (x & -> & Hx).
    exists x. split; [reflexivity|]. apply elem_of_app. right. right. exact Hx.
  - destruct (int_of_size_t rank <? cr).
    + rewrite (field_allocated h left a nd E) in H. cbn [mbind outcome_bind] in H.
      apply outcome_bind_Ok in H as (ls & H0 & H).
      destruct (left nd) as [b|] eqn:El; [|discriminate].
      destruct (IH l (Some b) ls q Hl ltac:(discriminate) H) as (x & -> & Hx).
      exists x. split; [reflexivity|]. apply elem_of_app. left. exact Hx.
    + apply outcome_bind_Ok in H as (l0 & _ & H).
      apply outcome_bind_Ok in H as (u & _ & H). injection H as <-.
      exists a. split; [reflexivity|]. apply elem_of_app. right. left.
Qed.

(** X8.  Whatever rank it is given, when [select] returns, it returns a
    key of the tree: its faults are a null dereference or a wrong key of
    the tree, never a value from elsewhere.  On the empty tree it does not
    return. *)
Theorem select_returns_a_key t s rank k :
  is_shape (heap t) (root t) s ->
  select t rank = Ok k ->
  k ∈ keys s.
Proof.
  intros Hs H. unfold select in H. cbn zeta in H.
  apply outcome_bind_Ok in H as (cr0 & _ & H).
  apply outcome_bind_Ok in H as (final & Hl & H).
  destruct (root t) as [a|] eqn:Er.
  - destruct (select_loop_in_tree _ _ _ _ _ _ _ Hs ltac:(discriminate) Hl)
      as (x & -> & Hx).
    destruct (is_shape_lookup _ _ _ Hs x Hx) as (nd & E & Hk).
    rewrite (field_allocated _ key x nd E) in H. injection H as <-. exact Hk.
  - destruct (budget (heap t)); cbn [select_loop] in Hl; injection Hl as <-;
      discriminate.
Qed.

Lemma select_returns_a_key_witness : 2 ∈ keys s_2_1.
Proof.
  apply (select_returns_a_key t_2_1 s_2_1 1 2).
  - repeat econstructor.
  - reflexivity.
Defined.

(** ** The empty tree *)

(** X9.  On a tree without root, whatever the arena holds: [contains] is
    [false] for every key; [rankOf] and [select] read through the null
    root and do not return; and [insert k] returns [true], having
    allocated a single node, BLACK, of size 1, without children or parent,
    which becomes the root. *)
Theorem empty_tree_behaviour t :
  root t = None ->
  (forall k, contains t k = Ok false)
  /\ (forall k, rankOf t k = NullDeref)
  /\ (forall rank, select t rank = NullDeref)
  /\ (forall k,
         insert k t
         = Ok (true, mkTree (heap t ++ [mkNode k BLACK None None None 1])
                            (Some (length (heap t))))).
Proof.
  destruct t as [h r]. cbn [root heap]. intros ->.
  split; [|split; [|split]]; try (intros; reflexivity).
  - intros k.
    assert ((h ++ [mkNode k BLACK None None None 1]) !! length h
            = Some (mkNode k BLACK None None None 1)) as E.
    { apply list_lookup_middle. reflexivity. }
    unfold insert, insertKey, insertKey_body, fixupFrom, budget.
    unfold mbind, M_bind, mret, M_ret, get_root, alloc, set_root.
    cbn [heap root insertKey_loop is_null mret M_ret fixupFrom_loop].
    unfold mbind, M_bind, mret, M_ret, get, deref. cbn [heap root].
    rewrite E. reflexivity.
Qed.

Lemma empty_tree_behaviour_witness :
  insert 1 empty = Ok (true, mkTree [mkNode 1 BLACK None None None 1] (Some 0%nat)).
Proof.
  exact (proj2 (proj2 (proj2 (empty_tree_behaviour empty eq_refl))) 1).
Defined.

(** ** Teardown *)

(** A write outside a subtree leaves the subtree as it is. *)
Lemma is_shape_insert_outside h p s a x :
  is_shape h p s -> a ∉ addrs s -> is_shape (<[a := x]> h) p s.
Proof.
  induction 1 as [|b nd l r E _ IHl _ IHr]; intros Ha; [constructor|].
  cbn [addrs] in Ha. rewrite elem_of_app, elem_of_cons in Ha.
  constructor.
  - rewrite list_lookup_insert_ne by (intros ->; tauto). exact E.
  - apply IHl. tauto.
  - apply IHr. tauto.
Qed.

Lemma live_Ok freed a t : a ∉ freed -> live freed (Some a) t = Ok (tt, t).
Proof. intros H. unfold live. rewrite bool_decide_eq_false_2 by exact H. reflexivity. Qed.

Lemma get_live_Ok {A} freed (f : Node -> A) a nd t :
  a ∉ freed -> heap t !! a = Some nd -> get_live freed f (Some a) t = Ok (f nd, t).
Proof.
  intros H E. unfold get_live. rewrite (bind_Ok _ _ _ _ _ (live_Ok freed a t H)).
  apply get_Ok, E.
Qed.

Lemma store_live_Ok freed upd a nd t :
  a ∉ freed -> heap t !! a = Some nd ->
  store_live freed upd (Some a) t
  = Ok (tt, mkTree (<[a := upd nd]> (heap t)) (root t)).
Proof.
  intros H E. unfold store_live. rewrite (bind_Ok _ _ _ _ _ (live_Ok freed a t H)).
  apply store_Ok, E.
Qed.

Lemma destructor_loop_tree :
  forall fuel s t freed,
    is_shape (heap t) (root t) s -> NoDup (addrs s) ->
    (forall a, a ∈ addrs s -> a ∉ freed) ->
    (teardown_passes s <= fuel)%nat ->
    exists t', destructor_loop fuel freed t = Ok (freed ++ addrs s, t')
               /\ root t' = None.
Proof.
  induction fuel as [|fuel IH]; intros s t freed Hs Hnd Hfr Hf.
  { destruct s; cbn [teardown_passes] in Hf; [|lia].
    inversion Hs as [Er|]; subst. exists t. cbn [destructor_loop].
    rewrite (bind_Ok _ _ t (root t) t eq_refl). rewrite <- Er. cbn [addrs].
    rewrite app_nil_r. split; reflexivity. }
  cbn [destructor_loop]. rewrite (bind_Ok _ _ t (root t) t eq_refl). cbn beta.
  inversion Hs as [Er|a nd l r E Hl Hr Er]; subst.
  { exists t. rewrite app_nil_r. split; [reflexivity|congruence]. }
  cbn [addrs teardown_passes] in *.
  assert (a ∉ freed) as Ha.
  { apply Hfr. apply elem_of_app. right. left. }
  rewrite (bind_Ok _ _ _ _ _ (get_live_Ok freed left a nd t Ha E)). cbn beta.
  inversion Hl as [El|b lnd ll lr Eb Hll Hlr El]; subst; cbn [is_null].
  - (* no left child: the root is deleted *)
    rewrite (bind_Ok _ _ _ _ _ (get_live_Ok freed right a nd t Ha E)). cbn beta.
    rewrite (bind_Ok _ _ _ _ _ (live_Ok freed a t Ha)). cbn beta.
    rewrite (bind_Ok _ _ t tt (mkTree (heap t) (right nd)) eq_refl). cbn beta.
    cbn [addrs app] in *. apply NoDup_cons in Hnd as [Har Hndr].
    destruct (IH r (mkTree (heap t) (right nd)) (freed ++ [a])) as (t' & H & Hr').
    + exact Hr.
    + exact Hndr.
    + intros x Hx. rewrite elem_of_app, list_elem_of_singleton.
      intros [Hx' | ->]; [|tauto]. apply (Hfr x); [right; exact Hx|exact Hx'].
    + cbn [length] in Hf. lia.
    + exists t'. rewrite H. rewrite <- app_assoc. split; [reflexivity|exact Hr'].
  - (* a left child: rotate it above the root *)
    cbn [addrs] in *.
    assert (b ∉ freed) as Hb.
    { apply Hfr. rewrite !elem_of_app, !elem_of_cons. auto. }
    apply NoDup_app in Hnd as (Hndl & Hdis & Hndar).
    apply NoDup_cons in Hndar as [Har Hndr].
    apply NoDup_app in Hndl as (Hndll & Hdisl & Hndblr).
    apply NoDup_cons in Hndblr as [Hblr Hndlr].
    assert (a <> b) as Hab.
    { intros ->. apply (Hdis b); [|left]. rewrite elem_of_app, elem_of_cons. auto. }
    rewrite (bind_Ok _ _ _ _ _ (get_live_Ok freed left a nd t Ha E)). cbn beta.
    rewrite <- El.
    rewrite (bind_Ok _ _ _ _ _ (get_live_Ok freed right b lnd t Hb Eb)). cbn beta.
    rewrite (bind_Ok _ _ _ _ _ (store_live_Ok freed _ a nd t Ha E)). cbn beta.
    set (t1 := mkTree _ _).
    assert (heap t1 !! b = Some lnd) as Eb1.
    { cbn [t1 heap]. rewrite list_lookup_insert_ne by exact Hab. exact Eb. }
    rewrite (bind_Ok _ _ _ _ _ (store_live_Ok freed _ b lnd t1 Hb Eb1)). cbn beta.
    set (t2 := mkTree _ _).
    rewrite (bind_Ok _ _ t2 tt (mkTree (heap t2) (Some b)) eq_refl). cbn beta.
    set (nd' := with_left (right lnd) nd).
    set (lnd' := with_right (Some a) lnd).
    destruct (IH (Bin ll b lnd' (Bin lr a nd' r)) (mkTree (heap t2) (Some b)) freed)
      as (t' & H & Hr').
    + cbn [heap root t2 t1].
      assert (forall p s, is_shape (heap t) p s -> a ∉ addrs s -> b ∉ addrs s ->
                          is_shape (<[b:=lnd']> (<[a:=nd']> (heap t))) p s) as Fr.
      { intros p s Hp Hpa Hpb. apply is_shape_insert_outside; [|exact Hpb].
        apply is_shape_insert_outside; [exact Hp|exact Hpa]. }
      constructor.
      * apply list_lookup_insert_eq. rewrite length_insert.
        eapply lookup_lt_Some, Eb.
      * cbn [lnd' with_right left]. apply Fr; [exact Hll| |].
        -- intros Hx. apply (Hdis a); [|left].
           rewrite elem_of_app. auto.
        -- intros Hx. apply (Hdisl b); [exact Hx|left].
      * cbn [lnd' with_right right]. constructor.
        -- rewrite list_lookup_insert_ne by (intros Heq; apply Hab; symmetry; exact Heq).
           apply list_lookup_insert_eq. eapply lookup_lt_Some, E.
        -- cbn [nd' with_left left]. apply Fr; [exact Hlr| |].
           ++ intros Hx. apply (Hdis a); [|left].
              rewrite elem_of_app, elem_of_cons. auto.
           ++ intros Hx. apply Hblr, Hx.
        -- cbn [nd' with_left right]. apply Fr; [exact Hr|exact Har|].
           intros Hx. apply (Hdis b); [|right; exact Hx].
           rewrite elem_of_app, elem_of_cons. auto.
    + cbn [addrs]. apply NoDup_app. split; [exact Hndll|]. split.
      * intros x Hx Hx'. apply elem_of_cons in Hx' as [-> | Hx'];
          [apply (Hdisl b); [exact Hx|left]|].
        apply elem_of_app in Hx' as [Hx'|Hx'];
          [apply (Hdisl x); [exact Hx|right; exact Hx']|].
        apply (Hdis x); [|exact Hx']. apply elem_of_app. auto.
      * apply NoDup_cons. split.
        -- rewrite elem_of_app, elem_of_cons. intros [Hx|[Hx|Hx]].
           ++ apply Hblr, Hx.
           ++ apply Hab. symmetry. exact Hx.
           ++ apply (Hdis b); [|right; exact Hx].
              rewrite elem_of_app, elem_of_cons. auto.
        -- apply NoDup_app. split; [exact Hndlr|]. split.
           ++ intros x Hx Hx'. apply (Hdis x); [|exact Hx'].
              rewrite elem_of_app, elem_of_cons. auto.
           ++ apply NoDup_cons. auto.
    + intros x Hx. apply Hfr. cbn [addrs] in Hx.
      rewrite !elem_of_app, !elem_of_cons, !elem_of_app, !elem_of_cons in *. tauto.
    + cbn [teardown_passes addrs] in *.
      rewrite !length_app in Hf. cbn [length] in Hf. lia.
    + exists t'. rewrite H. split; [|exact Hr']. cbn [addrs].
      rewrite <- !app_assoc. reflexivity.
Qed.

Lemma teardown_passes_bound s : (teardown_passes s <= 2 * length (addrs s))%nat.
Proof.
  induction s as [|l _ a nd r IHr]; cbn [teardown_passes addrs]; [lia|].
  rewrite length_app. cbn [length]. lia.
Qed.

(** X10.  On a state that holds a tree, the destructor comes back after
    [teardown_passes] turns of its loop, fewer than two per node; it has
    deleted every node of the tree exactly once, in symmetric order (so in
    ascending key order for a search tree), never touched a node after
    deleting it, and left the root null.  The [parent], [size] and colour
    fields play no part. *)
Theorem destructor_frees_the_tree t s fuel :
  is_tree t s ->
  (teardown_passes s <= fuel)%nat ->
  (exists t', destructor fuel t = Ok (addrs s, t') /\ root t' = None)
  /\ (teardown_passes s <= 2 * length (addrs s))%nat.
Proof.
  intros [Hs Hnd] Hf. split; [|apply teardown_passes_bound].
  destruct (destructor_loop_tree fuel s t [] Hs Hnd) as (t' & H & Hr).
  - intros a _ Ha. inversion Ha.
  - exact Hf.
  - exists t'. split; [exact H|exact Hr].
Qed.

Lemma destructor_frees_the_tree_witness :
  (exists t', destructor 3 t_2_1 = Ok ([1; 0]%nat, t') /\ root t' = None)
  /\ (teardown_passes s_2_1 <= 2 * length (addrs s_2_1))%nat.
Proof.
  apply (destructor_frees_the_tree t_2_1 s_2_1 3).
  - split.
    + repeat econstructor.
    + apply (bool_decide_unpack _). vm_compute. reflexivity.
  - vm_compute. lia.
Defined.

(** ** [insertKey] on a tree *)

Lemma is_shape_agree h h' p s :
  is_shape h p s -> (forall b, b ∈ addrs s -> h' !! b = h !! b) -> is_shape h' p s.
Proof.
  induction 1 as [|a nd l r E _ IHl _ IHr]; intros Hag; [constructor|].
  cbn [addrs] in Hag. constructor.
  - rewrite Hag; [exact E|]. apply elem_of_app. right. left.
  - apply IHl. intros b Hb. apply Hag, elem_of_app. auto.
  - apply IHr. intros b Hb. apply Hag, elem_of_app. right. right. exact Hb.
Qed.

Lemma addrs_counted_up k s : addrs (counted_up k s) = addrs s.
Proof.
  induction s as [|l IHl a nd r IHr]; [reflexivity|].
  cbn [counted_up]. destruct (k <? key nd); cbn [addrs]; congruence.
Qed.

(** The descent on a tree that does not hold the key. *)
Lemma insertKey_loop_tree k :
  forall s fuel prev p t,
    is_shape (heap t) p s -> NoDup (addrs s) -> k ∉ keys s ->
    (height s <= fuel)%nat ->
    exists t',
      insertKey_loop fuel k prev p t = Ok (Some (last_visited k prev s), t')
      /\ root t' = root t
      /\ length (heap t') = length (heap t)
      /\ is_shape (heap t') p (counted_up k s)
      /\ (forall b, b ∉ addrs s -> heap t' !! b = heap t !! b).
Proof.
  induction s as [|l IHl a nd r IHr]; intros fuel prev p t Hs Hnd Hk Hf;
    inversion Hs as [|a' nd' l' r' E Hl Hr]; subst.
  { exists t. destruct fuel; cbn [insertKey_loop]; repeat split; constructor. }
  cbn [height] in Hf. destruct fuel as [|fuel]; [lia|].
  cbn [addrs] in Hnd. apply NoDup_app in Hnd as (Hndl & Hdis & Hndar).
  apply NoDup_cons in Hndar as [Har Hndr].
  assert (a ∉ addrs l) as Hal by (intros Hx; apply (Hdis a Hx); left).
  rewrite elem_of_keys_node in Hk.
  cbn [insertKey_loop last_visited counted_up].
  rewrite (bind_Ok _ _ _ _ _ (get_Ok size a nd t E)). cbn beta. unfold set_size.
  rewrite (bind_Ok _ _ _ _ _ (store_Ok _ a nd t E)). cbn beta.
  set (nd1 := with_size (int_add (size nd) 1) nd).
  set (t1 := mkTree _ _).
  assert (heap t1 !! a = Some nd1) as E1.
  { apply list_lookup_insert_eq. eapply lookup_lt_Some, E. }
  rewrite (bind_Ok _ _ _ _ _ (get_Ok key a _ t1 E1)). cbn beta. cbn [nd1 with_size key].
  assert ((k =? key nd) = false) as -> by (apply Z.eqb_neq; intros ->; tauto).
  destruct (k <? key nd).
  - rewrite (bind_Ok _ _ _ _ _ (get_Ok left a _ t1 E1)). cbn beta. cbn [nd1 with_size left].
    destruct (IHl fuel (Some a) (left nd) t1) as (t' & H & R' & L' & S' & F').
    + apply is_shape_insert_outside; assumption.
    + exact Hndl.
    + tauto.
    + lia.
    + exists t'. split; [exact H|]. split; [exact R'|]. split.
      { rewrite L'. apply length_insert. }
      split.
      * constructor.
        -- rewrite (F' a Hal). exact E1.
        -- exact S'.
        -- cbn [nd1 with_size right]. apply is_shape_agree with (h := heap t); [exact Hr|].
           intros b Hb. rewrite F' by (intros Hx; apply (Hdis b Hx); right; exact Hb).
           apply list_lookup_insert_ne. intros ->. tauto.
      * intros b Hb. cbn [addrs] in Hb. rewrite elem_of_app, elem_of_cons in Hb.
        rewrite F' by tauto. apply list_lookup_insert_ne. intros ->. tauto.
  - rewrite (bind_Ok _ _ _ _ _ (get_Ok right a _ t1 E1)). cbn beta. cbn [nd1 with_size right].
    destruct (IHr fuel (Some a) (right nd) t1) as (t' & H & R' & L' & S' & F').
    + apply is_shape_insert_outside; assumption.
    + exact Hndr.
    + tauto.
    + lia.
    + exists t'. split; [exact H|]. split; [exact R'|]. split.
      { rewrite L'. apply length_insert. }
      split.
      * constructor.
        -- rewrite (F' a Har). exact E1.
        -- cbn [nd1 with_size left]. apply is_shape_agree with (h := heap t); [exact Hl|].
           intros b Hb. rewrite F' by (intros Hx; apply (Hdis b Hb); right; exact Hx).
           apply list_lookup_insert_ne. intros ->. tauto.
        -- exact S'.
      * intros b Hb. cbn [addrs] in Hb. rewrite elem_of_app, elem_of_cons in Hb.
        rewrite F' by tauto. apply list_lookup_insert_ne. intros ->. tauto.
Qed.

(** Linking the new leaf below the last node of the descent. *)
Lemma attach_link k new :
  forall s prev p h,
    s <> Leaf ->
    is_shape h p (counted_up k s) -> NoDup (addrs s) -> new ∉ addrs s ->
    h !! new = Some (mkNode k BLACK None None (last_visited k prev s) 1) ->
    exists c ndc,
      last_visited k prev s = Some c /\ h !! c = Some ndc
      /\ c ∈ addrs s
      /\ is_shape
           (<[c := if k <? key ndc then with_left (Some new) ndc
                   else with_right (Some new) ndc]> h)
           p (attach k new prev s).
Proof.
  induction s as [|l IHl a nd r IHr]; intros prev p h Hne Hs Hnd Hnew Hleaf;
    [congruence|]. clear Hne.
  cbn [addrs] in Hnd, Hnew. apply NoDup_app in Hnd as (Hndl & Hdis & Hndar).
  apply NoDup_cons in Hndar as [Har Hndr].
  assert (a ∉ addrs l) as Hal by (intros Hx; apply (Hdis a Hx); left).
  rewrite elem_of_app, elem_of_cons in Hnew.
  assert (new <> a) as Hna by (intros ->; tauto).
  cbn [counted_up last_visited attach] in *.
  set (nd1 := with_size (int_add (size nd) 1) nd) in *.
  destruct (k <? key nd) eqn:Ek;
    inversion Hs as [|a' nd' l' r' E Hl Hr]; subst.
  - destruct l as [|ll la lnd lr].
    + (* the leaf goes to the left of [a] *)
      cbn [last_visited attach] in *. exists a, nd1.
      split; [reflexivity|]. split; [exact E|]. split; [left|].
      cbn [nd1 with_size key]. rewrite Ek.
      assert (a < length h)%nat as Hlt by (eapply lookup_lt_Some, E).
      constructor.
      * apply list_lookup_insert_eq, Hlt.
      * cbn [with_left left]. constructor.
        -- rewrite list_lookup_insert_ne by (intros Heq; apply Hna; symmetry; exact Heq).
           exact Hleaf.
        -- constructor.
        -- constructor.
      * cbn [with_left right]. apply is_shape_insert_outside; [exact Hr|exact Har].
    + destruct (IHl (Some a) (left nd1) h) as (c & ndc & Hc & Ec & Hin & S');
        [discriminate|exact Hl|exact Hndl|tauto|exact Hleaf|].
      exists c, ndc. split; [exact Hc|]. split; [exact Ec|].
      split; [apply elem_of_app; left; exact Hin|].
      constructor.
      * rewrite list_lookup_insert_ne by (intros ->; tauto). exact E.
      * exact S'.
      * apply is_shape_insert_outside; [exact Hr|].
        intros Hx. apply (Hdis c Hin). right. exact Hx.
  - destruct r as [|rl ra rnd rr].
    + (* the leaf goes to the right of [a] *)
      cbn [last_visited attach] in *. exists a, nd1.
      split; [reflexivity|]. split; [exact E|].
      split; [apply elem_of_app; right; left|].
      cbn [nd1 with_size key]. rewrite Ek.
      assert (a < length h)%nat as Hlt by (eapply lookup_lt_Some, E).
      constructor.
      * apply list_lookup_insert_eq, Hlt.
      * cbn [with_right left]. apply is_shape_insert_outside; [exact Hl|exact Hal].
      * cbn [with_right right]. constructor.
        -- rewrite list_lookup_insert_ne by (intros Heq; apply Hna; symmetry; exact Heq).
           exact Hleaf.
        -- constructor.
        -- constructor.
    + destruct (IHr (Some a) (right nd1) h) as (c & ndc & Hc & Ec & Hin & S');
        [discriminate|exact Hr|exact Hndr|tauto|exact Hleaf|].
      exists c, ndc. split; [exact Hc|]. split; [exact Ec|].
      split; [apply elem_of_app; right; right; exact Hin|].
      constructor.
      * rewrite list_lookup_insert_ne by (intros ->; tauto). exact E.
      * apply is_shape_insert_outside; [exact Hl|].
        intros Hx. apply (Hdis c Hx). right. exact Hin.
      * exact S'.
Qed.

Lemma elem_of_addrs_attach k new prev s x :
  x ∈ addrs (attach k new prev s) <-> x = new \/ x ∈ addrs s.
Proof.
  revert prev. induction s as [|l IHl a nd r IHr]; intros prev; cbn [attach].
  - cbn [addrs app]. rewrite elem_of_cons. tauto.
  - destruct (k <? key nd); cbn [addrs];
      rewrite !elem_of_app, !elem_of_cons, ?IHl, ?IHr; tauto.
Qed.

Lemma NoDup_addrs_attach k new prev s :
  NoDup (addrs s) -> new ∉ addrs s -> NoDup (addrs (attach k new prev s)).
Proof.
  revert prev. induction s as [|l IHl a nd r IHr]; intros prev Hnd Hnew; cbn [attach].
  - cbn [addrs app]. apply NoDup_singleton.
  - cbn [addrs] in Hnd, Hnew. rewrite elem_of_app, elem_of_cons in Hnew.
    apply NoDup_app in Hnd as (Hndl & Hdis & Hndar).
    apply NoDup_cons in Hndar as [Har Hndr].
    destruct (k <? key nd); cbn [addrs]; apply NoDup_app.
    + split; [apply IHl; tauto|]. split; [|apply NoDup_cons; auto].
      intros x Hx Hx'. apply elem_of_addrs_attach in Hx as [->|Hx].
      * rewrite elem_of_cons in Hx'. tauto.
      * exact (Hdis x Hx Hx').
    + split; [exact Hndl|]. split.
      * intros x Hx Hx'. rewrite elem_of_cons, elem_of_addrs_attach in Hx'.
        destruct Hx' as [->|[->|Hx']].
        -- apply (Hdis a Hx). left.
        -- assert (new ∈ addrs l) by exact Hx. tauto.
        -- apply (Hdis x Hx). right. exact Hx'.
      * apply NoDup_cons. split; [|apply IHr; tauto].
        rewrite elem_of_addrs_attach. intros [->|Hx]; tauto.
Qed.

(** [insertKey] of a new key on a tree. *)
Lemma insertKey_on_tree t s k :
  is_tree t s -> k ∉ keys s ->
  exists t',
    insertKey k t = Ok (Some (length (heap t)), t')
    /\ is_tree t' (attach k (length (heap t)) None s).
Proof.
  intros Ht Hk. pose proof (is_tree_height t s Ht) as Hh. destruct Ht as [Hs Hnd].
  assert (length (heap t) ∉ addrs s) as Hnew.
  { intros Hx. pose proof (is_shape_addrs_allocated _ _ _ Hs _ Hx). lia. }
  destruct (insertKey_loop_tree k s (budget (heap t)) None (root t) t Hs Hnd Hk)
    as (t1 & H1 & R1 & L1 & S1 & F1); [lia|].
  unfold insertKey, insertKey_body.
  rewrite (bind_Ok _ _ t (root t) t eq_refl). cbn beta.
  rewrite (bind_Ok _ _ _ _ _ H1). cbn beta iota.
  set (leaf := mkNode k BLACK None None (last_visited k None s) 1).
  rewrite (bind_Ok _ _ t1 (Some (length (heap t1)))
             (mkTree (heap t1 ++ [leaf]) (root t1)) eq_refl). cbn beta.
  rewrite L1.
  set (t2 := mkTree _ _).
  assert (heap t2 !! length (heap t) = Some leaf) as E2.
  { cbn [t2 heap]. rewrite <- L1. apply list_lookup_middle. reflexivity. }
  assert (is_shape (heap t2) (root t) (counted_up k s)) as S2.
  { apply is_shape_agree with (h := heap t1); [exact S1|].
    intros b Hb. cbn [t2 heap]. apply lookup_app_l.
    rewrite addrs_counted_up in Hb.
    pose proof (is_shape_addrs_allocated _ _ _ Hs _ Hb). lia. }
  destruct s as [|l a nd r].
  - (* the tree was empty *)
    inversion Hs as [Er|]; subst. cbn [last_visited is_null attach] in *.
    rewrite (bind_Ok _ _ t2 tt (mkTree (heap t2) (Some (length (heap t)))) eq_refl).
    eexists. split; [reflexivity|]. split.
    + cbn [root heap]. constructor; [exact E2|constructor|constructor].
    + apply NoDup_singleton.
  - destruct (attach_link k (length (heap t)) (Bin l a nd r) None (root t) (heap t2))
      as (c & ndc & Hc & Ec & Hin & S3);
      [discriminate|exact S2|exact Hnd|exact Hnew|exact E2|].
    fold leaf in Hc. rewrite Hc. cbn [is_null].
    assert (heap t2 !! c = Some ndc) as Ec' by exact Ec.
    unfold mbind at 1, M_bind at 1. unfold mbind at 1, M_bind at 1.
    rewrite (get_Ok key c ndc t2 Ec'). unfold set_left, set_right.
    destruct (k <? key ndc); rewrite (store_Ok _ c ndc t2 Ec');
      (eexists; split; [reflexivity|]; split;
       [cbn [heap root t2]; rewrite R1; exact S3
       |apply NoDup_addrs_attach; assumption]).
Qed.

(** X11.  On a state that holds a tree, [insertKey] of a key that is not
    in it returns the address of a node it has allocated, the next free
    one, and leaves the tree [attach] describes: the old tree with the
    [size] of every node on the search path counted up by one, and a new
    BLACK leaf of size 1 for the key where the search ran off, its [parent]
    set to the last node of the path. *)
Theorem insertKey_attaches_leaf t s k :
  is_tree t s -> k ∉ keys s ->
  exists t',
    insertKey k t = Ok (Some (length (heap t)), t')
    /\ is_tree t' (attach k (length (heap t)) None s).
Proof. exact (insertKey_on_tree t s k). Qed.

Lemma insertKey_attaches_leaf_witness :
  exists t',
    insertKey 5 t_2_1 = Ok (Some (length (heap t_2_1)), t')
    /\ is_tree t' (attach 5 (length (heap t_2_1)) None s_2_1).
Proof.
  apply (insertKey_attaches_leaf t_2_1 s_2_1 5).
  - split.
    + repeat econstructor.
    + apply (bool_decide_unpack _). vm_compute. reflexivity.
  - apply (bool_decide_unpack _). vm_compute. reflexivity.
Defined.

(** *** The invariants across [insertKey] *)

Lemma keys_attach k new prev s : keys (attach k new prev s) ≡ₚ k :: keys s.
Proof.
  revert prev. induction s as [|l IHl a nd r IHr]; intros prev; cbn [attach].
  - reflexivity.
  - destruct (k <? key nd); cbn [keys].
    + rewrite IHl. destruct l; reflexivity.
    + rewrite IHr. rewrite (Permutation_middle (keys l) (key nd :: keys r) k).
      apply Permutation_app_head.
      destruct r; cbn [with_right with_size key]; apply perm_swap.
Qed.

Lemma elem_of_keys_attach k new prev s x :
  x ∈ keys (attach k new prev s) <-> x = k \/ x ∈ keys s.
Proof. rewrite keys_attach, elem_of_cons. reflexivity. Qed.

Lemma forallb_elem_of {A} (f : A -> bool) (l : list A) :
  forallb f l = true <-> forall x, x ∈ l -> f x = true.
Proof.
  rewrite forallb_forall. split; intros H x Hx; apply H, list_elem_of_In, Hx.
Qed.

Lemma bst_ordered_attach k new s :
  bst_ordered s = true -> k ∉ keys s ->
  forall prev, bst_ordered (attach k new prev s) = true.
Proof.
  induction s as [|l IHl a nd r IHr]; intros Hb Hk prev; [reflexivity|].
  apply bst_ordered_node in Hb as (Hlt & Hgt & Hbl & Hbr).
  rewrite elem_of_keys_node in Hk. cbn [attach].
  destruct (k <? key nd) eqn:Ek.
  - apply Z.ltb_lt in Ek. cbn [bst_ordered].
    assert (key (match l with
                 | Leaf => with_left (Some new) (with_size (int_add (size nd) 1) nd)
                 | Bin _ _ _ _ => with_size (int_add (size nd) 1) nd
                 end) = key nd) as -> by (destruct l; reflexivity).
    rewrite !andb_true_iff, !forallb_elem_of. repeat split.
    + intros x Hx. apply Z.ltb_lt. apply elem_of_keys_attach in Hx as [->|Hx]; auto.
    + intros x Hx. apply Z.ltb_lt. auto.
    + apply IHl; tauto.
    + exact Hbr.
  - apply Z.ltb_ge in Ek. assert (key nd < k) as Ek' by (assert (k <> key nd) by tauto; lia).
    cbn [bst_ordered].
    assert (key (match r with
                 | Leaf => with_right (Some new) (with_size (int_add (size nd) 1) nd)
                 | Bin _ _ _ _ => with_size (int_add (size nd) 1) nd
                 end) = key nd) as -> by (destruct r; reflexivity).
    rewrite !andb_true_iff, !forallb_elem_of. repeat split.
    + intros x Hx. apply Z.ltb_lt. auto.
    + intros x Hx. apply Z.ltb_lt. apply elem_of_keys_attach in Hx as [->|Hx]; auto.
    + exact Hbl.
    + apply IHr; tauto.
Qed.

Lemma sizes_ok_attach k new s :
  sizes_ok s = true -> Z.of_nat (length (keys s)) < 2 ^ 31 - 1 ->
  forall prev,
    sizes_ok (attach k new prev s) = true
    /\ root_size (attach k new prev s) = root_size s + 1.
Proof.
  induction s as [|l IHl a nd r IHr]; intros Hs Hn prev; [split; reflexivity|].
  pose proof (sizes_ok_count _ Hs) as C. cbn [root_size] in C.
  pose proof (sizes_ok_node _ _ _ _ Hs) as [Hsl Hsr].
  cbn [sizes_ok] in Hs. rewrite !andb_true_iff in Hs. destruct Hs as [[Hs _] _].
  apply Z.eqb_eq in Hs.
  assert (int_add (size nd) 1 = size nd + 1) as Hadd by (apply int_add_exact; lia).
  cbn [keys] in Hn. rewrite length_app in Hn. cbn [length] in Hn.
  cbn [attach]. destruct (k <? key nd).
  - destruct (IHl Hsl ltac:(lia) (Some a)) as [Il Rl].
    cbn [sizes_ok root_size]. rewrite Il, Hsr, Rl.
    assert (size (match l with
                  | Leaf => with_left (Some new) (with_size (int_add (size nd) 1) nd)
                  | Bin _ _ _ _ => with_size (int_add (size nd) 1) nd
                  end) = size nd + 1) as -> by (destruct l; exact Hadd).
    split; [|reflexivity]. rewrite !andb_true_r. apply Z.eqb_eq. lia.
  - destruct (IHr Hsr ltac:(lia) (Some a)) as [Ir Rr].
    cbn [sizes_ok root_size]. rewrite Ir, Hsl, Rr.
    assert (size (match r with
                  | Leaf => with_right (Some new) (with_size (int_add (size nd) 1) nd)
                  | Bin _ _ _ _ => with_size (int_add (size nd) 1) nd
                  end) = size nd + 1) as -> by (destruct r; exact Hadd).
    split; [|reflexivity]. rewrite !andb_true_r. apply Z.eqb_eq. lia.
Qed.

Lemma root_parent_is_attach k new a s :
  root_parent_is a s = true -> root_parent_is a (attach k new (Some a) s) = true.
Proof.
  destruct s as [|l b nd r]; cbn [attach root_parent_is].
  - intros _. cbn. apply Nat.eqb_refl.
  - destruct (k <? key nd); cbn [root_parent_is]; [destruct l|destruct r]; exact id.
Qed.

Lemma parents_ok_attach k new s :
  parents_ok s = true -> forall prev, parents_ok (attach k new prev s) = true.
Proof.
  induction s as [|l IHl a nd r IHr]; intros Hp prev; [reflexivity|].
  cbn [parents_ok] in Hp. rewrite !andb_true_iff in Hp.
  destruct Hp as [[[Pl Pr] Hl] Hr]. cbn [attach].
  destruct (k <? key nd); cbn [parents_ok]; rewrite !andb_true_iff; repeat split;
    auto using root_parent_is_attach.
Qed.

(** X12.  The attach step keeps the structural invariants it can: on a
    tree that does not hold [k], [insertKey k] leaves a tree whose keys are
    the old ones and [k]; search-tree order, right [size] counters (below
    2^31 - 1 nodes) and parent links that mirror the child links each carry
    over; and on a search tree [contains] then finds [k] and answers as
    before for every other key. *)
Theorem insertKey_keeps_invariants t s k :
  is_tree t s -> k ∉ keys s ->
  exists t' s',
    insertKey k t = Ok (Some (length (heap t)), t')
    /\ is_tree t' s'
    /\ keys s' ≡ₚ k :: keys s
    /\ (bst_ordered s = true ->
        bst_ordered s' = true
        /\ contains t' k = Ok true
        /\ forall k', k' <> k -> contains t' k' = contains t k')
    /\ (sizes_ok s = true -> Z.of_nat (length (keys s)) < 2 ^ 31 - 1 ->
        sizes_ok s' = true)
    /\ (parents_ok s = true -> parents_ok s' = true).
Proof.
  intros Ht Hk. destruct (insertKey_on_tree t s k Ht Hk) as (t' & H & Ht').
  exists t', (attach k (length (heap t)) None s).
  split; [exact H|]. split; [exact Ht'|]. split; [apply keys_attach|].
  split; [|split].
  - intros Hb. pose proof (bst_ordered_attach k (length (heap t)) s Hb Hk None) as Hb'.
    split; [exact Hb'|]. split.
    + rewrite (contains_on_tree _ _ k Ht' Hb'). f_equal.
      apply bool_decide_eq_true. apply elem_of_keys_attach. auto.
    + intros k' Hne. rewrite (contains_on_tree _ _ k' Ht' Hb').
      rewrite (contains_on_tree _ _ k' Ht Hb). f_equal.
      apply bool_decide_ext. rewrite elem_of_keys_attach. tauto.
  - intros Hs Hn. apply sizes_ok_attach; assumption.
  - intros Hp. apply parents_ok_attach, Hp.
Qed.

Lemma insertKey_keeps_invariants_witness :
  exists t' s',
    insertKey 5 t_2_1 = Ok (Some (length (heap t_2_1)), t')
    /\ is_tree t' s'
    /\ keys s' ≡ₚ 5 :: keys s_2_1
    /\ (bst_ordered s_2_1 = true ->
        bst_ordered s' = true
        /\ contains t' 5 = Ok true
        /\ forall k', k' <> 5 -> contains t' k' = contains t_2_1 k')
    /\ (sizes_ok s_2_1 = true -> Z.of_nat (length (keys s_2_1)) < 2 ^ 31 - 1 ->
        sizes_ok s' = true)
    /\ (parents_ok s_2_1 = true -> parents_ok s' = true).
Proof.
  apply (insertKey_keeps_invariants t_2_1 s_2_1 5).
  - split.
    + repeat econstructor.
    + apply (bool_decide_unpack _). vm_compute. reflexivity.
  - apply (bool_decide_unpack _). vm_compute. reflexivity.
Defined.

(** ** [fixupFrom] below a BLACK parent *)

Lemma siblingOf_Ok n nd c ndc t :
  heap t !! n = Some nd -> parent nd = Some c -> heap t !! c = Some ndc ->
  valid_ptr (heap t) (left ndc) -> valid_ptr (heap t) (right ndc) ->
  siblingOf (Some n) t
  = Ok (if ptr_eqb (Some n) (left ndc) then right ndc else left ndc, t)
    /\ valid_ptr (heap t)
         (if ptr_eqb (Some n) (left ndc) then right ndc else left ndc).
Proof.
  intros En Pn Ec Hl Hr. unfold siblingOf.
  rewrite (bind_Ok _ _ _ _ _ (get_Ok parent n nd t En)). cbn beta. rewrite Pn.
  rewrite (bind_Ok _ _ _ _ _ (get_Ok left c ndc t Ec)). cbn beta.
  destruct (ptr_eqb (Some n) (left ndc)).
  - split; [apply get_Ok, Ec|exact Hr].
  - split; [apply get_Ok, Ec|exact Hl].
Qed.

Lemma siblingOf_returns c ndc t :
  heap t !! c = Some ndc -> valid_ptr (heap t) (parent ndc) ->
  exists aunt, siblingOf (Some c) t = Ok (aunt, t).
Proof.
  intros Ec Hg. unfold siblingOf.
  rewrite (bind_Ok _ _ _ _ _ (get_Ok parent c ndc t Ec)). cbn beta.
  destruct (parent ndc) as [g|]; [|eexists; reflexivity].
  destruct Hg as [gnd Eg].
  rewrite (bind_Ok _ _ _ _ _ (get_Ok left g gnd t Eg)). cbn beta.
  destruct (ptr_eqb (Some c) (left gnd)); eexists; apply get_Ok, Eg.
Qed.

Lemma color_is_Ok a nd c t :
  heap t !! a = Some nd -> color_is (Some a) c t = Ok (Color_eqb (color nd) c, t).
Proof.
  intros E. unfold color_is. rewrite (bind_Ok _ _ _ _ _ (get_Ok color a nd t E)).
  reflexivity.
Qed.

Lemma and_then_Ok (a b : M bool) t x t1 :
  a t = Ok (x, t1) -> (a &&& b) t = if x then b t1 else Ok (false, t1).
Proof.
  intros H. unfold and_then. rewrite (bind_Ok _ _ _ _ _ H). destruct x; reflexivity.
Qed.

Lemma or_else_Ok (a b : M bool) t x t1 :
  a t = Ok (x, t1) -> (a ||| b) t = if x then Ok (true, t1) else b t1.
Proof.
  intros H. unfold or_else. rewrite (bind_Ok _ _ _ _ _ H). destruct x; reflexivity.
Qed.

(** One turn of [fixupFrom] below a BLACK parent. *)
Lemma fixupFrom_recolours t n nd c ndc :
  heap t !! n = Some nd -> parent nd = Some c ->
  heap t !! c = Some ndc -> color ndc = BLACK ->
  valid_ptr (heap t) (left ndc) -> valid_ptr (heap t) (right ndc) ->
  valid_ptr (heap t) (parent ndc) ->
  fixupFrom (Some n) t
  = Ok (tt, mkTree (<[n := with_color RED nd]> (heap t)) (root t)).
Proof.
  intros En Pn Ec Cc Hl Hr Hg.
  destruct (siblingOf_Ok n nd c ndc t En Pn Ec Hl Hr) as [Hsib Vsib].
  destruct (siblingOf_returns c ndc t Ec Hg) as [aunt Haunt].
  set (sibling := if ptr_eqb (Some n) (left ndc) then right ndc else left ndc) in *.
  unfold fixupFrom, budget. cbn [fixupFrom_loop].
  rewrite (bind_Ok _ _ _ _ _ (get_Ok parent n nd t En)). cbn beta.
  rewrite Pn. cbn [is_null].
  rewrite (bind_Ok _ _ _ _ _ (get_Ok parent n nd t En)). cbn beta. rewrite Pn.
  rewrite (bind_Ok _ _ _ _ _ (get_Ok parent c ndc t Ec)). cbn beta.
  rewrite (bind_Ok _ _ _ _ _ Hsib). cbn beta.
  rewrite (bind_Ok _ _ _ _ _ Haunt). cbn beta.
  pose proof (color_is_Ok c ndc BLACK t Ec) as Hc. rewrite Cc in Hc. cbn [Color_eqb] in Hc.
  destruct sibling as [b|] eqn:Es.
  - destruct Vsib as [sb Eb].
    pose proof (color_is_Ok b sb BLACK t Eb) as Hb.
    pose proof (color_is_Ok b sb RED t Eb) as Hb'.
    destruct (color sb) eqn:Cs; cbn [Color_eqb] in Hb, Hb'.
    + (* a RED sibling *)
      erewrite bind_Ok.
      2:{ rewrite (and_then_Ok _ _ _ _ _ Hc).
          rewrite (or_else_Ok _ _ t (is_null (Some b)) t eq_refl). cbn [is_null].
          exact Hb. }
      cbn beta iota. erewrite bind_Ok.
      2:{ erewrite and_then_Ok.
          2:{ rewrite (and_then_Ok _ _ _ _ _ Hc). reflexivity. }
          cbn [is_null negb]. exact Hb'. }
      cbn beta iota. apply store_Ok, En.
    + (* a BLACK sibling *)
      erewrite bind_Ok.
      2:{ rewrite (and_then_Ok _ _ _ _ _ Hc).
          rewrite (or_else_Ok _ _ t (is_null (Some b)) t eq_refl). cbn [is_null].
          exact Hb. }
      cbn beta iota. apply store_Ok, En.
  - (* no sibling *)
    erewrite bind_Ok.
    2:{ rewrite (and_then_Ok _ _ _ _ _ Hc).
        rewrite (or_else_Ok _ _ t (is_null None) t eq_refl). cbn [is_null].
        reflexivity. }
    cbn beta iota. apply store_Ok, En.
Qed.

(** X13.  [fixupFrom] on a node whose parent is BLACK writes one field:
    it colours the node RED and stops, with no rotation, whatever the
    colour of the sibling (the pointers of the parent being valid). *)
Theorem fixupFrom_black_parent t n nd c ndc :
  heap t !! n = Some nd -> parent nd = Some c ->
  heap t !! c = Some ndc -> color ndc = BLACK ->
  valid_ptr (heap t) (left ndc) -> valid_ptr (heap t) (right ndc) ->
  valid_ptr (heap t) (parent ndc) ->
  fixupFrom (Some n) t
  = Ok (tt, mkTree (<[n := with_color RED nd]> (heap t)) (root t)).
Proof. exact (fixupFrom_recolours t n nd c ndc). Qed.

Lemma fixupFrom_black_parent_witness :
  fixupFrom (Some 3%nat) t_7
  = Ok (tt, mkTree (<[3%nat := with_color RED (leaf_node 3 RED (Some 1%nat))]> (heap t_7))
                   (root t_7)).
Proof.
  apply (fixupFrom_black_parent t_7 3%nat (leaf_node 3 RED (Some 1%nat)) 1%nat
           (mkNode 5 BLACK (Some 3%nat) (Some 4%nat) (Some 0%nat) 3));
    try reflexivity; cbn; eexists; reflexivity.
Defined.

(** ** [insert] of a key that lands below a BLACK node *)

Lemma is_shape_shape_of h :
  forall s p fuel,
    is_shape h p s -> (height s <= fuel)%nat -> shape_of fuel h p = Some s.
Proof.
  induction s as [|l IHl a nd r IHr]; intros p fuel Hs Hf;
    inversion Hs as [|a' nd' l' r' E Hl Hr]; subst.
  - destruct fuel; reflexivity.
  - cbn [height] in Hf. destruct fuel as [|fuel]; [lia|].
    cbn [shape_of]. rewrite E. cbn.
    rewrite (IHl _ fuel Hl) by lia. cbn. rewrite (IHr _ fuel Hr) by lia. reflexivity.
Qed.

(** On a state that holds a tree, the invariants of the state are those
    of the tree. *)
Lemma invariants_of_tree t s : is_tree t s -> invariants t = six_invariants s.
Proof.
  intros Ht. pose proof (is_tree_height t s Ht) as Hh. destruct Ht as [Hs _].
  unfold invariants, holds, shape_of_tree.
  rewrite (is_shape_shape_of _ _ _ _ Hs) by lia. reflexivity.
Qed.

Lemma six_invariants_split s :
  six_invariants s = true ->
  bst_ordered s = true /\ root_black s = true /\ no_red_red s = true
  /\ is_Some (black_height s) /\ sizes_ok s = true /\ parents_ok s = true.
Proof.
  unfold six_invariants. rewrite !andb_true_iff, bool_decide_eq_true. tauto.
Qed.

Lemma is_shape_node_in h p s :
  is_shape h p s ->
  forall a nd, node_in a nd s ->
    h !! a = Some nd /\ valid_ptr h (left nd) /\ valid_ptr h (right nd).
Proof.
  induction 1 as [|b x l r E Hl IHl Hr IHr]; intros a nd Hin; cbn [node_in] in Hin.
  - destruct Hin.
  - destruct Hin as [[-> ->]|[Hin|Hin]]; [|apply IHl, Hin|apply IHr, Hin].
    split; [exact E|]. split.
    + inversion Hl; cbn; eauto.
    + inversion Hr; cbn; eauto.
Qed.

Lemma is_shape_parent_valid h p s :
  is_shape h p s -> parents_ok s = true -> valid_ptr h (root_parent s) ->
  forall a nd, node_in a nd s -> valid_ptr h (parent nd).
Proof.
  induction 1 as [|b x l r E Hl IHl Hr IHr]; intros Hp Hv a nd Hin;
    cbn [node_in] in Hin; [destruct Hin|].
  cbn [parents_ok] in Hp. rewrite !andb_true_iff in Hp.
  destruct Hp as [[[Pl Pr] Hpl] Hpr].
  assert (forall c, root_parent_is b c = true -> valid_ptr h (root_parent c)) as V.
  { intros [|cl ca cnd cr]; cbn [root_parent_is root_parent]; [exact (fun _ => I)|].
    destruct (parent cnd) as [q|]; cbn [ptr_eqb]; [|exact (fun _ => I)].
    intros Hq. apply Nat.eqb_eq in Hq. subst q. cbn. eauto. }
  destruct Hin as [[-> ->]|[Hin|Hin]].
  - exact Hv.
  - apply (IHl Hpl (V _ Pl) a nd Hin).
  - apply (IHr Hpr (V _ Pr) a nd Hin).
Qed.

(** In the tree [insertKey] leaves, the new leaf and the node above it. *)
Lemma attach_lands k new :
  forall s prev,
    s <> Leaf -> lands_under_black k s = true ->
    exists c ndc,
      node_in c ndc (attach k new prev s) /\ color ndc = BLACK
      /\ node_in new (mkNode k BLACK None None (Some c) 1) (attach k new prev s).
Proof.
  induction s as [|l IHl a nd r IHr]; intros prev Hne Hb; [congruence|]. clear Hne.
  cbn [lands_under_black attach] in *. destruct (k <? key nd).
  - destruct l as [|ll la lnd lr].
    + exists a, (with_left (Some new) (with_size (int_add (size nd) 1) nd)).
      cbn [attach node_in]. split; [auto|]. split.
      * cbn. destruct (color nd); [discriminate|reflexivity].
      * right. left. left. split; reflexivity.
    + destruct (IHl (Some a)) as (c & ndc & H1 & H2 & H3); [discriminate|exact Hb|].
      exists c, ndc. cbn [node_in]. auto.
  - destruct r as [|rl ra rnd rr].
    + exists a, (with_right (Some new) (with_size (int_add (size nd) 1) nd)).
      cbn [attach node_in]. split; [auto|]. split.
      * cbn. destruct (color nd); [discriminate|reflexivity].
      * right. right. left. split; reflexivity.
    + destruct (IHr (Some a)) as (c & ndc & H1 & H2 & H3); [discriminate|exact Hb|].
      exists c, ndc. cbn [node_in]. auto.
Qed.

(** *** Recolouring one node *)

Lemma is_shape_recolor h p s x nd c :
  is_shape h p s -> h !! x = Some nd ->
  is_shape (<[x := with_color c nd]> h) p (recolor x c s).
Proof.
  intros Hs Ex. induction Hs as [|a nd' l r E _ IHl _ IHr]; [constructor|].
  cbn [recolor]. destruct (Nat.eqb a x) eqn:D.
  - apply Nat.eqb_eq in D. subst a. assert (nd' = nd) as -> by congruence.
    constructor; [|exact IHl|exact IHr].
    apply list_lookup_insert_eq. eapply lookup_lt_Some, Ex.
  - apply Nat.eqb_neq in D. constructor; [|exact IHl|exact IHr].
    rewrite list_lookup_insert_ne by (intros ->; congruence). exact E.
Qed.

Lemma recolor_outside x c s : x ∉ addrs s -> recolor x c s = s.
Proof.
  induction s as [|l IHl a nd r IHr]; intros H; [reflexivity|].
  cbn [addrs] in H. rewrite elem_of_app, elem_of_cons in H. cbn [recolor].
  rewrite IHl, IHr by tauto.
  assert (Nat.eqb a x = false) as -> by (apply Nat.eqb_neq; intros ->; tauto).
  reflexivity.
Qed.

Lemma addrs_recolor x c s : addrs (recolor x c s) = addrs s.
Proof. induction s as [|l IHl a nd r IHr]; cbn [recolor addrs]; congruence. Qed.

Lemma recolored_fields a x c nd :
  let nd' := if Nat.eqb a x then with_color c nd else nd in
  key nd' = key nd /\ size nd' = size nd /\ parent nd' = parent nd.
Proof. destruct (Nat.eqb a x); repeat split. Qed.

Lemma keys_recolor x c s : keys (recolor x c s) = keys s.
Proof.
  induction s as [|l IHl a nd r IHr]; cbn [recolor keys]; [reflexivity|].
  rewrite IHl, IHr. destruct (recolored_fields a x c nd) as (-> & _). reflexivity.
Qed.

Lemma bst_ordered_recolor x c s : bst_ordered (recolor x c s) = bst_ordered s.
Proof.
  induction s as [|l IHl a nd r IHr]; cbn [recolor bst_ordered]; [reflexivity|].
  rewrite IHl, IHr, !keys_recolor.
  destruct (recolored_fields a x c nd) as (-> & _). reflexivity.
Qed.

Lemma root_size_recolor x c s : root_size (recolor x c s) = root_size s.
Proof.
  destruct s as [|l a nd r]; cbn [recolor root_size]; [reflexivity|].
  apply (recolored_fields a x c nd).
Qed.

Lemma sizes_ok_recolor x c s : sizes_ok (recolor x c s) = sizes_ok s.
Proof.
  induction s as [|l IHl a nd r IHr]; cbn [recolor sizes_ok]; [reflexivity|].
  rewrite IHl, IHr, !root_size_recolor.
  destruct (recolored_fields a x c nd) as (_ & -> & _). reflexivity.
Qed.

Lemma root_parent_is_recolor b x c s :
  root_parent_is b (recolor x c s) = root_parent_is b s.
Proof.
  destruct s as [|l a nd r]; cbn [recolor root_parent_is]; [reflexivity|].
  destruct (recolored_fields a x c nd) as (_ & _ & ->). reflexivity.
Qed.

Lemma parents_ok_recolor x c s : parents_ok (recolor x c s) = parents_ok s.
Proof.
  induction s as [|l IHl a nd r IHr]; cbn [recolor parents_ok]; [reflexivity|].
  rewrite IHl, IHr, !root_parent_is_recolor. reflexivity.
Qed.

(** *** The colour invariants with the new leaf RED *)

Lemma recolor_attach_node k new prev l a nd r :
  new ∉ addrs (Bin l a nd r) ->
  recolor new RED (attach k new prev (Bin l a nd r))
  = if k <? key nd then
      Bin (recolor new RED (attach k new (Some a) l)) a
          (match l with
           | Leaf => with_left (Some new) (with_size (int_add (size nd) 1) nd)
           | Bin _ _ _ _ => with_size (int_add (size nd) 1) nd
           end) r
    else
      Bin l a
          (match r with
           | Leaf => with_right (Some new) (with_size (int_add (size nd) 1) nd)
           | Bin _ _ _ _ => with_size (int_add (size nd) 1) nd
           end) (recolor new RED (attach k new (Some a) r)).
Proof.
  intros H. cbn [addrs] in H. rewrite elem_of_app, elem_of_cons in H.
  assert (Nat.eqb a new = false) as D by (apply Nat.eqb_neq; intros ->; tauto).
  cbn [attach]. destruct (k <? key nd); cbn [recolor]; rewrite D.
  - rewrite (recolor_outside new RED r) by tauto. reflexivity.
  - rewrite (recolor_outside new RED l) by tauto. reflexivity.
Qed.

Lemma recolor_attach_leaf k new prev :
  recolor new RED (attach k new prev Leaf)
  = Bin Leaf new (mkNode k RED None None prev 1) Leaf.
Proof. cbn [attach recolor]. rewrite Nat.eqb_refl. reflexivity. Qed.

Lemma black_height_attach_red k new :
  forall s prev,
    new ∉ addrs s ->
    black_height (recolor new RED (attach k new prev s)) = black_height s.
Proof.
  induction s as [|l IHl a nd r IHr]; intros prev H.
  - rewrite recolor_attach_leaf. reflexivity.
  - rewrite (recolor_attach_node k new prev l a nd r H).
    cbn [addrs] in H. rewrite elem_of_app, elem_of_cons in H.
    destruct (k <? key nd); cbn [black_height].
    + rewrite IHl by tauto. destruct l; reflexivity.
    + rewrite IHr by tauto. destruct r; reflexivity.
Qed.

Lemma root_color_attach_red k new prev l a nd r :
  new ∉ addrs (Bin l a nd r) ->
  root_color (recolor new RED (attach k new prev (Bin l a nd r))) = color nd.
Proof.
  intros H. rewrite (recolor_attach_node k new prev l a nd r H).
  destruct (k <? key nd); cbn [root_color]; [destruct l|destruct r]; reflexivity.
Qed.

Lemma no_red_red_attach_red k new :
  forall s prev,
    new ∉ addrs s -> no_red_red s = true -> lands_under_black k s = true ->
    no_red_red (recolor new RED (attach k new prev s)) = true.
Proof.
  induction s as [|l IHl a nd r IHr]; intros prev H Hn Hb.
  - rewrite recolor_attach_leaf. reflexivity.
  - rewrite (recolor_attach_node k new prev l a nd r H).
    cbn [addrs] in H. rewrite elem_of_app, elem_of_cons in H.
    cbn [no_red_red lands_under_black] in Hn, Hb.
    rewrite !andb_true_iff in Hn. destruct Hn as [[Hc Hl] Hr].
    destruct (k <? key nd); cbn [no_red_red].
    + destruct l as [|ll la lnd lr].
      * rewrite recolor_attach_leaf. cbn [with_left with_size color] in *.
        rewrite Hb, Hr. reflexivity.
      * rewrite IHl, Hr by tauto. rewrite root_color_attach_red by tauto.
        cbn [with_size color root_color] in *. rewrite Hc. reflexivity.
    + destruct r as [|rl ra rnd rr].
      * rewrite recolor_attach_leaf. cbn [with_right with_size color] in *.
        rewrite Hb, Hl. reflexivity.
      * rewrite IHr, Hl by tauto. rewrite root_color_attach_red by tauto.
        cbn [with_size color root_color] in *. rewrite Hc. reflexivity.
Qed.

Lemma root_parent_attach_red k new prev l a nd r :
  new ∉ addrs (Bin l a nd r) ->
  root_parent (recolor new RED (attach k new prev (Bin l a nd r))) = parent nd.
Proof.
  intros H. rewrite (recolor_attach_node k new prev l a nd r H).
  destruct (k <? key nd); cbn [root_parent]; [destruct l|destruct r]; reflexivity.
Qed.

Lemma root_parent_attach k new prev l a nd r :
  root_parent (attach k new prev (Bin l a nd r)) = parent nd.
Proof.
  cbn [attach]. destruct (k <? key nd); cbn [root_parent]; [destruct l|destruct r];
    reflexivity.
Qed.

(** X14.  [insert] is right whenever the key lands below a BLACK node: on
    a non-empty tree that has the six invariants, whose root has a null
    [parent] and that holds fewer than 2^31 - 1 nodes, [insert] of a key
    that is not in the tree and whose search runs off below a BLACK node
    returns [true] and leaves a tree with the six invariants again, the
    same black height, the old keys and the new one; [contains] finds the
    key.  (The keys that land below a RED node are the ones that reach the
    rotations.) *)
Theorem insert_below_black_node t s k :
  is_tree t s -> invariants t = true -> root t <> None -> root_parent s = None ->
  k ∉ keys s -> lands_under_black k s = true ->
  Z.of_nat (length (keys s)) < 2 ^ 31 - 1 ->
  exists t' s',
    insert k t = Ok (true, t')
    /\ is_tree t' s' /\ invariants t' = true /\ root_parent s' = None
    /\ keys s' ≡ₚ k :: keys s
    /\ black_height s' = black_height s
    /\ contains t' k = Ok true.
Proof.
  intros Ht Hinv Hroot Hrp Hk Hb Hn.
  rewrite (invariants_of_tree t s Ht) in Hinv.
  apply six_invariants_split in Hinv as (Ibst & Iroot & Inrr & Ibh & Isz & Ipar).
  set (new := length (heap t)).
  destruct (insertKey_on_tree t s k Ht Hk) as (t1 & H1 & Ht1). fold new in H1, Ht1.
  assert (new ∉ addrs s) as Hnew.
  { intros Hx. pose proof (is_shape_addrs_allocated _ _ _ (proj1 Ht) _ Hx).
    unfold new in *. lia. }
  assert (s <> Leaf) as Hne.
  { intros ->. destruct Ht as [Hs _]. inversion Hs. congruence. }
  destruct s as [|l a nd r]; [congruence|].
  set (s1 := attach k new None (Bin l a nd r)) in *.
  destruct Ht1 as [Hs1 Hnd1].
  (* the new leaf and its BLACK parent in the heap *)
  destruct (attach_lands k new (Bin l a nd r) None Hne Hb) as (c & ndc & Hc & Cc & Hleaf).
  fold s1 in Hc, Hleaf.
  destruct (is_shape_node_in _ _ _ Hs1 _ _ Hc) as (Ec & Vl & Vr).
  destruct (is_shape_node_in _ _ _ Hs1 _ _ Hleaf) as (En & _ & _).
  assert (parents_ok s1 = true) as Ipar1 by (apply parents_ok_attach, Ipar).
  assert (valid_ptr (heap t1) (parent ndc)) as Vp.
  { apply (is_shape_parent_valid _ _ _ Hs1 Ipar1) with (a := c); [|exact Hc].
    unfold s1. rewrite root_parent_attach. cbn [root_parent] in Hrp.
    rewrite Hrp. exact I. }
  pose proof (fixupFrom_recolours t1 new _ c ndc En eq_refl Ec Cc Vl Vr Vp) as H2.
  set (t2 := mkTree _ _) in H2.
  exists t2, (recolor new RED s1).
  assert (is_tree t2 (recolor new RED s1)) as Ht2.
  { split; [|rewrite addrs_recolor; exact Hnd1].
    cbn [t2 heap root]. apply is_shape_recolor; [exact Hs1|exact En]. }
  assert (bst_ordered (recolor new RED s1) = true) as Ibst2.
  { rewrite bst_ordered_recolor. apply bst_ordered_attach; assumption. }
  subst s1.
  split; [|split; [exact Ht2|split; [|split; [|split; [|split]]]]].
  - unfold insert. rewrite (bind_Ok _ _ _ _ _ H1). cbn beta. cbn [is_null].
    rewrite (bind_Ok _ _ _ _ _ H2). reflexivity.
  - rewrite (invariants_of_tree _ _ Ht2). unfold six_invariants.
    rewrite Ibst2, sizes_ok_recolor, parents_ok_recolor, Ipar1.
    rewrite (proj1 (sizes_ok_attach k new (Bin l a nd r) Isz Hn None)).
    rewrite (no_red_red_attach_red k new (Bin l a nd r) None Hnew Inrr Hb).
    rewrite (black_height_attach_red k new (Bin l a nd r) None Hnew).
    rewrite (bool_decide_eq_true_2 _ Ibh).
    unfold root_black. rewrite (root_color_attach_red k new None l a nd r Hnew).
    unfold root_black in Iroot. cbn [root_color] in Iroot. rewrite Iroot.
    reflexivity.
  - rewrite (root_parent_attach_red k new None l a nd r Hnew).
    exact Hrp.
  - rewrite keys_recolor. apply keys_attach.
  - apply black_height_attach_red, Hnew.
  - rewrite (contains_on_tree _ _ k Ht2 Ibst2). f_equal.
    apply bool_decide_eq_true. rewrite keys_recolor. apply elem_of_keys_attach. auto.
Qed.

Lemma insert_below_black_node_witness :
  exists t' s',
    insert 5 t_2_1 = Ok (true, t')
    /\ is_tree t' s' /\ invariants t' = true /\ root_parent s' = None
    /\ keys s' ≡ₚ 5 :: keys s_2_1
    /\ black_height s' = black_height s_2_1
    /\ contains t' 5 = Ok true.
Proof.
  apply (insert_below_black_node t_2_1 s_2_1 5).
  - split.
    + repeat econstructor.
    + apply (bool_decide_unpack _). vm_compute. reflexivity.
  - reflexivity.
  - discriminate.
  - reflexivity.
  - apply (bool_decide_unpack _). vm_compute. reflexivity.
  - reflexivity.
  - reflexivity.
Defined.

(** ** A rotation of a node without children *)

Lemma bind_assoc {A B C} (m : M A) (f : A -> M B) (g : B -> M C) t :
  ((m ≫= f) ≫= g) t = (m ≫= (fun a => f a ≫= g)) t.
Proof. unfold mbind, M_bind. destruct (m t) as [[a t']| | |]; reflexivity. Qed.

Lemma bind_ret {A B} (a : A) (g : A -> M B) t : (mret a ≫= g) t = g a t.
Proof. reflexivity. Qed.

Lemma lookup_stored {A} (h : list A) a x b :
  (a < length h)%nat ->
  <[a := x]> h !! b = if decide (a = b) then Some x else h !! b.
Proof.
  intros H. case_decide as D.
  - subst b. apply list_lookup_insert_eq, H.
  - apply list_lookup_insert_ne, D.
Qed.

(** One step of a run: a read or a write through an allocated pointer. *)
Ltac run_get :=
  match goal with
  | |- (get ?f (Some ?a) ≫= ?k) ?t = _ =>
      match goal with
      | H : heap t !! a = Some ?nd |- _ =>
          rewrite (bind_Ok _ k t _ _ (get_Ok f a nd t H)); cbn beta;
          cbn [key color left right parent size
               with_color with_left with_right with_parent with_size]
      end
  end.

Ltac carry_lookup t t' a v :=
  repeat match goal with
         | H : heap t !! ?b = Some ?x |- _ =>
             let H' := fresh "E" in
             assert (heap t' !! b = if decide (a = b) then Some v else Some x) as H'
                 by (subst t'; cbn [heap]; rewrite lookup_stored by assumption;
                     case_decide; [reflexivity|exact H]);
             clear H;
             first [ rewrite decide_True in H' by reflexivity
                   | rewrite decide_False in H' by congruence ]
         end.

Ltac run_store :=
  match goal with
  | |- (store ?u (Some ?a) ≫= ?k) ?t = _ =>
      match goal with
      | H : heap t !! a = Some ?nd |- _ =>
          rewrite (bind_Ok _ k t _ _ (store_Ok u a nd t H)); cbn beta;
          let t' := fresh "t" in
          let Hlen := fresh "Hlen" in
          pose proof (lookup_lt_Some _ _ _ H) as Hlen;
          set (t' := mkTree (<[a := u nd]> (heap t)) (root t));
          carry_lookup t t' a (u nd); clearbody t'; clear Hlen; try clear t
      end
  end.

Ltac run_set_root :=
  match goal with
  | |- (set_root ?q ≫= ?k) ?t = _ =>
      rewrite (bind_Ok _ k t tt (mkTree (heap t) q) eq_refl); cbn beta;
      let t' := fresh "t" in
      let Ht := fresh "Ht" in
      let Hh := fresh "Hh" in
      remember (mkTree (heap t) q) as t' eqn:Ht;
      assert (heap t' = heap t) as Hh by (subst t'; reflexivity);
      clear Ht; rewrite <- Hh in *; clear Hh
  end.

(** [rotateWithParent] on a node that has no children does not return:
    one child pointer of the node is still null when the sizes of both
    children are read. *)
Lemma rotateWithParent_childless t n nd p pnd :
  heap t !! n = Some nd -> heap t !! p = Some pnd -> n <> p ->
  parent nd = Some p -> left nd = None -> right nd = None ->
  match parent pnd with
  | None => True
  | Some g => g <> n /\ g <> p /\ is_Some (heap t !! g)
  end ->
  rotateWithParent (Some n) t = NullDeref.
Proof.
  intros En Ep Hnp Pn Ln Rn Hg. unfold rotateWithParent.
  run_get. rewrite Pn. cbn [is_null].
  run_get. rewrite Pn. run_get.
  unfold set_left, set_right, set_parent, set_size.
  destruct (parent pnd) as [g|] eqn:Pp.
  - destruct Hg as (Hgn & Hgp & [gnd Eg]).
    destruct (ptr_eqb (Some n) (left pnd)).
    + (* rotate right: [node->left] stays null *)
      rewrite ?bind_assoc. run_get. rewrite Rn.
      rewrite ?bind_assoc. run_get. rewrite Pn.
      rewrite ?bind_assoc. run_store.
      rewrite ?bind_assoc. run_get. rewrite Pn.
      rewrite ?bind_assoc. run_store. rewrite bind_ret.
      run_get. rewrite Pn. run_get. rewrite Pp. cbn [is_null negb].
      rewrite ?bind_assoc. run_get.
      rewrite ?bind_assoc. run_get. rewrite Pn.
      destruct (ptr_eqb _ _); run_store; rewrite bind_ret;
        run_get; rewrite Pn; run_get; rewrite Pp; run_store; run_store;
        run_get; run_store; run_get; rewrite Ln; reflexivity.
    + (* rotate left: [node->right] stays null *)
      rewrite ?bind_assoc. run_get. rewrite Ln.
      rewrite ?bind_assoc. run_get. rewrite Pn.
      rewrite ?bind_assoc. run_store.
      rewrite ?bind_assoc. run_get. rewrite Pn.
      rewrite ?bind_assoc. run_store. rewrite bind_ret.
      run_get. rewrite Pn. run_get. rewrite Pp. cbn [is_null negb].
      rewrite ?bind_assoc. run_get.
      rewrite ?bind_assoc. run_get. rewrite Pn.
      destruct (ptr_eqb _ _); run_store; rewrite bind_ret;
        run_get; rewrite Pn; run_get; rewrite Pp; run_store; run_store;
        run_get; run_store; run_get; run_get; run_get; rewrite Rn; reflexivity.
  - destruct (ptr_eqb (Some n) (left pnd)).
    + rewrite ?bind_assoc. run_get. rewrite Rn.
      rewrite ?bind_assoc. run_get. rewrite Pn.
      rewrite ?bind_assoc. run_store.
      rewrite ?bind_assoc. run_get. rewrite Pn.
      rewrite ?bind_assoc. run_store. rewrite bind_ret.
      run_get. rewrite Pn. run_get. rewrite Pp. cbn [is_null negb].
      run_set_root. rewrite bind_ret.
      run_get. rewrite Pn. run_get. rewrite Pp. run_store. run_store.
      run_get. run_store. run_get. rewrite Ln. reflexivity.
    + rewrite ?bind_assoc. run_get. rewrite Ln.
      rewrite ?bind_assoc. run_get. rewrite Pn.
      rewrite ?bind_assoc. run_store.
      rewrite ?bind_assoc. run_get. rewrite Pn.
      rewrite ?bind_assoc. run_store. rewrite bind_ret.
      run_get. rewrite Pn. run_get. rewrite Pp. cbn [is_null negb].
      run_set_root. rewrite bind_ret.
      run_get. rewrite Pn. run_get. rewrite Pp. run_store. run_store.
      run_get. run_store. run_get. run_get. run_get. rewrite Rn. reflexivity.
Qed.

(** X15.  [rotateWithParent] on a node that has no children does not
    return, whichever side of its parent the node is on and whether or not
    there is a grandparent: after the relinking one child pointer of the
    node is still null, and the recomputation of [node->size] reads [size]
    through it. *)
Theorem rotateWithParent_leaf_never_returns t n nd p pnd :
  heap t !! n = Some nd -> heap t !! p = Some pnd -> n <> p ->
  parent nd = Some p -> left nd = None -> right nd = None ->
  match parent pnd with
  | None => True
  | Some g => g <> n /\ g <> p /\ is_Some (heap t !! g)
  end ->
  rotateWithParent (Some n) t = NullDeref.
Proof. exact (rotateWithParent_childless t n nd p pnd). Qed.

Lemma rotateWithParent_leaf_never_returns_witness :
  rotateWithParent (Some 2%nat) t_10_5_7_attached = NullDeref.
Proof.
  apply (rotateWithParent_leaf_never_returns t_10_5_7_attached 2%nat
           (leaf_node 7 BLACK (Some 1%nat)) 1%nat
           (mkNode 5 RED None (Some 2%nat) (Some 0%nat) 2));
    try reflexivity; try discriminate.
  cbn. repeat split; try discriminate. eexists. reflexivity.
Defined.

(** [fixupFrom] in the zig-zag case on a node without children. *)
Lemma fixupFrom_zigzag_childless t n nd p pnd g gnd :
  heap t !! n = Some nd -> heap t !! p = Some pnd -> heap t !! g = Some gnd ->
  n <> p -> g <> n -> g <> p ->
  parent nd = Some p -> left nd = None -> right nd = None ->
  parent pnd = Some g -> color pnd = RED ->
  match (if ptr_eqb (Some p) (left gnd) then right gnd else left gnd) with
  | None => True
  | Some a => exists and, heap t !! a = Some and /\ color and = BLACK
  end ->
  ptr_eqb (Some n) (left pnd) <> ptr_eqb (Some p) (left gnd) ->
  fixupFrom (Some n) t = NullDeref.
Proof.
  intros En Ep Eg Hnp Hgn Hgp Pn Ln Rn Pp Cp Haunt Hzz.
  assert (rotateWithParent (Some n) t = NullDeref) as Hrot.
  { apply (rotateWithParent_childless t n nd p pnd); try assumption.
    rewrite Pp. eauto. }
  assert (siblingOf (Some n) t
          = Ok (if ptr_eqb (Some n) (left pnd) then right pnd else left pnd, t)) as Hsib.
  { unfold siblingOf. rewrite (bind_Ok _ _ _ _ _ (get_Ok parent n nd t En)). cbn beta.
    rewrite Pn. rewrite (bind_Ok _ _ _ _ _ (get_Ok left p pnd t Ep)). cbn beta.
    destruct (ptr_eqb (Some n) (left pnd)); apply get_Ok, Ep. }
  assert (siblingOf (Some p) t
          = Ok (if ptr_eqb (Some p) (left gnd) then right gnd else left gnd, t)) as Ha.
  { unfold siblingOf. rewrite (bind_Ok _ _ _ _ _ (get_Ok parent p pnd t Ep)). cbn beta.
    rewrite Pp. rewrite (bind_Ok _ _ _ _ _ (get_Ok left g gnd t Eg)). cbn beta.
    destruct (ptr_eqb (Some p) (left gnd)); apply get_Ok, Eg. }
  set (sibling := if ptr_eqb (Some n) (left pnd) then right pnd else left pnd) in *.
  set (aunt := if ptr_eqb (Some p) (left gnd) then right gnd else left gnd) in *.
  pose proof (color_is_Ok p pnd BLACK t Ep) as HcB.
  pose proof (color_is_Ok p pnd RED t Ep) as HcR.
  rewrite Cp in HcB, HcR. cbn [Color_eqb] in HcB, HcR.
  unfold fixupFrom, budget. cbn [fixupFrom_loop].
  rewrite (bind_Ok _ _ _ _ _ (get_Ok parent n nd t En)). cbn beta.
  rewrite Pn. cbn [is_null].
  rewrite (bind_Ok _ _ _ _ _ (get_Ok parent n nd t En)). cbn beta. rewrite Pn.
  rewrite (bind_Ok _ _ _ _ _ (get_Ok parent p pnd t Ep)). cbn beta. rewrite Pp.
  rewrite (bind_Ok _ _ _ _ _ Hsib). cbn beta.
  rewrite (bind_Ok _ _ _ _ _ Ha). cbn beta.
  (* the parent is RED: not the first two cases *)
  erewrite bind_Ok; [|rewrite (and_then_Ok _ _ _ _ _ HcB); reflexivity].
  cbn beta iota.
  erewrite bind_Ok.
  2:{ erewrite and_then_Ok; [|rewrite (and_then_Ok _ _ _ _ _ HcB); reflexivity].
      reflexivity. }
  cbn beta iota.
  (* the aunt is absent or BLACK: the third case *)
  erewrite bind_Ok.
  2:{ rewrite (and_then_Ok _ _ _ _ _ HcR).
      rewrite (or_else_Ok _ _ t (is_null aunt) t eq_refl).
      destruct aunt as [a|]; cbn [is_null]; [|reflexivity].
      destruct Haunt as (and & Ea & Ca).
      rewrite (color_is_Ok a and BLACK t Ea), Ca. reflexivity. }
  cbn beta iota.
  rewrite (bind_Ok _ _ _ _ _ (get_Ok left p pnd t Ep)). cbn beta.
  rewrite (bind_Ok _ _ _ _ _ (get_Ok left g gnd t Eg)). cbn beta.
  assert (negb (eqb (ptr_eqb (Some n) (left pnd)) (ptr_eqb (Some p) (left gnd))) = true)
    as ->.
  { destruct (ptr_eqb (Some n) (left pnd)), (ptr_eqb (Some p) (left gnd));
      try reflexivity; congruence. }
  apply bind_NullDeref, Hrot.
Qed.

(** X16.  [fixupFrom] on a node without children, on the inner side of a
    RED parent whose sibling is absent or BLACK, does not return: it is
    the zig-zag case, and its first rotation is of the childless node. *)
Theorem fixupFrom_zigzag_leaf_never_returns t n nd p pnd g gnd :
  heap t !! n = Some nd -> heap t !! p = Some pnd -> heap t !! g = Some gnd ->
  n <> p -> g <> n -> g <> p ->
  parent nd = Some p -> left nd = None -> right nd = None ->
  parent pnd = Some g -> color pnd = RED ->
  match (if ptr_eqb (Some p) (left gnd) then right gnd else left gnd) with
  | None => True
  | Some a => exists and, heap t !! a = Some and /\ color and = BLACK
  end ->
  ptr_eqb (Some n) (left pnd) <> ptr_eqb (Some p) (left gnd) ->
  fixupFrom (Some n) t = NullDeref.
Proof. exact (fixupFrom_zigzag_childless t n nd p pnd g gnd). Qed.

Lemma fixupFrom_zigzag_leaf_never_returns_witness :
  fixupFrom (Some 2%nat) t_10_5_7_attached = NullDeref.
Proof.
  apply (fixupFrom_zigzag_leaf_never_returns t_10_5_7_attached 2%nat
           (leaf_node 7 BLACK (Some 1%nat)) 1%nat
           (mkNode 5 RED None (Some 2%nat) (Some 0%nat) 2) 0%nat
           (mkNode 10 BLACK (Some 1%nat) None None 3));
    try reflexivity; try discriminate.
Defined.

(** ** [insert] of a key that lands on the inner side of a RED node *)

Lemma is_shape_linked h p s : is_shape h p s -> p = root_addr s /\ linked s.
Proof.
  induction 1 as [|a nd l r E _ [IHl1 IHl2] _ [IHr1 IHr2]]; cbn; auto.
Qed.

Lemma ptr_eqb_other s x :
  x ∉ addrs s -> ptr_eqb (Some x) (root_addr s) = false.
Proof.
  destruct s as [|l b nd r]; cbn; [reflexivity|]. intros H.
  apply Nat.eqb_neq. intros ->. apply H. apply elem_of_app. right. left.
Qed.

Lemma ptr_eqb_eq p q : ptr_eqb p q = true -> p = q.
Proof.
  destruct p, q; cbn; try discriminate; [|reflexivity].
  intros H. apply Nat.eqb_eq in H. congruence.
Qed.

Lemma Color_eqb_eq c d : Color_eqb c d = true -> c = d.
Proof. destruct c, d; cbn; congruence. Qed.

(** In the tree [insertKey] leaves, the new leaf, its RED parent and its
    grandparent, when the key lands on the inner side. *)
Lemma attach_zigzag k new :
  forall s prev,
    lands_zigzag k s = true -> linked s -> parents_ok s = true ->
    NoDup (addrs s) -> new ∉ addrs s ->
    exists g gnd p pnd,
      node_in g gnd (attach k new prev s)
      /\ node_in p pnd (attach k new prev s)
      /\ node_in new (mkNode k BLACK None None (Some p) 1) (attach k new prev s)
      /\ g ∈ addrs s /\ p ∈ addrs s /\ g <> p
      /\ parent pnd = Some g /\ color pnd = RED
      /\ match (if ptr_eqb (Some p) (left gnd) then right gnd else left gnd) with
         | None => True
         | Some a =>
             exists and, node_in a and (attach k new prev s) /\ color and = BLACK
         end
      /\ ptr_eqb (Some new) (left pnd) <> ptr_eqb (Some p) (left gnd).
Proof.
  induction s as [|l IHl a nd r IHr]; intros prev Hz Hlk Hp Hnd Hnew;
    [discriminate|].
  cbn [linked] in Hlk. destruct Hlk as (Ll & Lr & Hlkl & Hlkr).
  cbn [parents_ok] in Hp. rewrite !andb_true_iff in Hp.
  destruct Hp as [[[Pl Pr] Hpl] Hpr].
  cbn [addrs] in Hnd, Hnew. apply NoDup_app in Hnd as (Hndl & Hdis & Hndar).
  apply NoDup_cons in Hndar as [Har Hndr].
  assert (a ∉ addrs l) as Hal by (intros Hx; apply (Hdis a Hx); left).
  rewrite elem_of_app, elem_of_cons in Hnew.
  cbn [lands_zigzag] in Hz. cbn [attach].
  destruct (k <? key nd) eqn:Ek.
  - destruct l as [|ll b lnd lr]; [discriminate|].
    apply orb_true_iff in Hz as [Hz|Hz].
    + (* the new leaf goes to the right of the left child [b] *)
      rewrite !andb_true_iff in Hz. destruct Hz as [[[Hk Hc] Hlf] Hau].
      apply negb_true_iff in Hk. apply Color_eqb_eq in Hc.
      destruct lr as [|]; [|discriminate]. clear Hlf IHl IHr.
      cbn [attach]. rewrite Hk. cbn [attach].
      cbn [root_parent_is] in Pl. apply ptr_eqb_eq in Pl.
      cbn [linked] in Hlkl. destruct Hlkl as (Lll & _ & _ & _).
      cbn [root_addr] in Ll.
      exists a, (with_size (int_add (size nd) 1) nd),
        b, (with_right (Some new) (with_size (int_add (size lnd) 1) lnd)).
      cbn [node_in addrs with_right with_size parent color left right].
      assert (a <> b) as Hab.
      { intros ->. apply Hal. cbn [addrs]. apply elem_of_app. right. left. }
      rewrite Ll. cbn [ptr_eqb]. rewrite Nat.eqb_refl.
      split_and!.
      * auto.
      * auto.
      * auto 7.
      * apply elem_of_app. right. left.
      * apply elem_of_app. left. apply elem_of_app. right. left.
      * exact Hab.
      * exact Pl.
      * exact Hc.
      * rewrite Lr. destruct r as [|rl ra rnd rr]; cbn [root_addr]; [exact I|].
        cbn [root_color] in Hau. apply Color_eqb_eq in Hau.
        exists rnd. cbn [node_in]. split; [|exact Hau]. right. right. left.
        split; reflexivity.
      * rewrite Lll. destruct ll as [|l1 x xnd l2]; cbn [root_addr]; [discriminate|].
        intros Hx. apply Nat.eqb_eq in Hx. subst x. apply Hnew. left.
        cbn [addrs]. rewrite !elem_of_app, elem_of_cons. auto.
    + clear IHr.
      destruct (IHl (Some a) Hz Hlkl Hpl Hndl ltac:(tauto))
        as (g & gnd & p & pnd & H1 & H2 & H3 & H4 & H5 & H6 & H7 & H8 & H9 & H10).
      exists g, gnd, p, pnd. cbn [node_in].
      split_and!; auto; try (apply elem_of_app; left; assumption).
      destruct (if ptr_eqb (Some p) (left gnd) then right gnd else left gnd);
        [|exact I].
      destruct H9 as (and & Ha & Hc). exists and. auto.
  - destruct r as [|rl b rnd rr]; [discriminate|].
    apply orb_true_iff in Hz as [Hz|Hz].
    + (* the new leaf goes to the left of the right child [b] *)
      rewrite !andb_true_iff in Hz. destruct Hz as [[[Hk Hc] Hlf] Hau].
      apply Color_eqb_eq in Hc.
      destruct rl as [|]; [|discriminate]. clear Hlf IHl IHr.
      cbn [attach]. rewrite Hk. cbn [attach].
      cbn [root_parent_is] in Pr. apply ptr_eqb_eq in Pr.
      cbn [root_addr] in Lr.
      exists a, (with_size (int_add (size nd) 1) nd),
        b, (with_left (Some new) (with_size (int_add (size rnd) 1) rnd)).
      cbn [node_in addrs with_left with_size parent color left right].
      assert (a <> b) as Hab.
      { intros ->. apply Har. cbn [addrs]. left. }
      rewrite Ll. rewrite (ptr_eqb_other l b).
      2:{ intros Hx. apply (Hdis b Hx). right. cbn [addrs]. left. }
      cbn [ptr_eqb]. rewrite Nat.eqb_refl.
      split_and!.
      * auto.
      * auto 7.
      * auto 7.
      * apply elem_of_app. right. left.
      * apply elem_of_app. right. right. cbn [addrs app]. left.
      * exact Hab.
      * exact Pr.
      * exact Hc.
      * destruct l as [|l1 la lnd l2]; cbn [root_addr]; [exact I|].
        cbn [root_color] in Hau. apply Color_eqb_eq in Hau.
        exists lnd. cbn [node_in]. split; [|exact Hau]. right. left. left.
        split; reflexivity.
      * discriminate.
    + clear IHl.
      destruct (IHr (Some a) Hz Hlkr Hpr Hndr ltac:(tauto))
        as (g & gnd & p & pnd & H1 & H2 & H3 & H4 & H5 & H6 & H7 & H8 & H9 & H10).
      exists g, gnd, p, pnd. cbn [node_in].
      split_and!; auto; try (apply elem_of_app; right; right; assumption).
      destruct (if ptr_eqb (Some p) (left gnd) then right gnd else left gnd);
        [|exact I].
      destruct H9 as (and & Ha & Hc). exists and. auto.
Qed.

(** X17.  [insert] does not return for any key that lands on the inner
    side of a RED node whose sibling is absent or BLACK: on a tree whose
    parent links mirror the child links, [insert] of a key that is not in
    the tree and whose search runs off below the right of a RED left
    child, or below the left of a RED right child, with the other child of
    the grandparent absent or BLACK, ends in a null dereference. *)
Theorem insert_zigzag_never_returns t s k :
  is_tree t s -> parents_ok s = true ->
  k ∉ keys s -> lands_zigzag k s = true ->
  insert k t = NullDeref.
Proof.
  intros Ht Hp Hk Hz.
  destruct (insertKey_on_tree t s k Ht Hk) as (t1 & H1 & [Hs1 _]).
  destruct Ht as [Hs Hnd]. set (new := length (heap t)) in *.
  assert (new ∉ addrs s) as Hnew.
  { intros Hx. pose proof (is_shape_addrs_allocated _ _ _ Hs _ Hx).
    unfold new in *. lia. }
  destruct (attach_zigzag k new s None Hz (proj2 (is_shape_linked _ _ _ Hs)) Hp Hnd Hnew)
    as (g & gnd & p & pnd & Ng & Np & Nn & Hg & Hpin & Hgp & Pp & Cp & Hau & Hzz).
  destruct (is_shape_node_in _ _ _ Hs1 _ _ Ng) as (Eg & _ & _).
  destruct (is_shape_node_in _ _ _ Hs1 _ _ Np) as (Ep & _ & _).
  destruct (is_shape_node_in _ _ _ Hs1 _ _ Nn) as (En & _ & _).
  unfold insert. rewrite (bind_Ok _ _ _ _ _ H1). cbn beta. cbn [is_null].
  apply bind_NullDeref.
  apply (fixupFrom_zigzag_childless t1 new _ p pnd g gnd En Ep Eg);
    try reflexivity; try assumption.
  - intros ->. exact (Hnew Hpin).
  - intros ->. exact (Hnew Hg).
  - destruct (if ptr_eqb (Some p) (left gnd) then right gnd else left gnd) as [a|];
      [|exact I].
    destruct Hau as (and & Na & Ca). exists and. split; [|exact Ca].
    apply (is_shape_node_in _ _ _ Hs1 _ _ Na).
Qed.

Lemma insert_zigzag_never_returns_witness : insert 7 t_10_5 = NullDeref.
Proof.
  apply (insert_zigzag_never_returns t_10_5 s_10_5 7).
  - split.
    + repeat econstructor.
    + apply (bool_decide_unpack _). vm_compute. reflexivity.
  - reflexivity.
  - apply (bool_decide_unpack _). vm_compute. reflexivity.
  - reflexivity.
Defined.
